(** * Relationship helpers of convex-helpers (server/relationships.ts)

    A shallow embedding of the seven relationship helpers
    ([getAll], [getAllOrThrow], [getOneFrom], [getOneFromOrThrow],
    [getManyFrom], [getManyVia], [getManyViaOrThrow]) over an abstract
    database handle, together with the type-level rule
    [FieldIfDoesntMatchIndex] that decides when the trailing field argument
    may be left out.

    The database is an external collaborator.  Its read methods are functions
    of the store state that either return or raise; every call made through
    the handle is recorded, so that statements about which calls a helper
    issues can be made. *)

From Stdlib Require Import List String Bool Arith ZArith Lia DecimalString.
Import ListNotations.
Local Open Scope string_scope.
Local Open Scope list_scope.

Set Implicit Arguments.

(** ** Errors and settled promises *)

(** What a rejected promise carries.  [StoreError] is an exception raised by
    the database itself, [UniqueError] the exception of the query method
    [unique()] on more than one result, and [NullThrown] the [Error] thrown by
    [nullThrows], with the message it was given ([None]: no message was
    passed, the helper's own default text is used). *)
Inductive Error : Type :=
| StoreError (e : string)
| UniqueError
| NullThrown (message : option string).

(** The outcome of awaiting a promise. *)
Inductive Settled (A : Type) : Type :=
| Fulfilled (a : A)
| Rejected (e : Error).

Arguments Fulfilled {A} a.
Arguments Rejected {A} e.

(** What a method of the database answers: an exception text or a value. *)
Definition Answer (A : Type) : Type := (string + A)%type.

Definition settle {A} (r : Answer A) : Settled A :=
  match r with
  | inl e => Rejected (StoreError e)
  | inr a => Fulfilled a
  end.

(** ** The database handle *)

(** [db.query(table).withIndex(index, q => q.eq(field, value))]. *)
Record Query (Value : Type) : Type := mkQuery {
  q_table : string;
  q_index : string;
  q_field : string;
  q_value : Value
}.

(** The calls that can be made on a database handle.  The first three are
    reads; [CallInsert] and [CallDelete] are the writes callers perform. *)
Inductive Call (Value : Type) : Type :=
| CallGet (id : Value)
| CallSystemGet (id : Value)
| CallQuery (q : Query Value)
| CallInsert (table : string)
| CallDelete (id : Value).

Arguments CallGet {Value} id.
Arguments CallSystemGet {Value} id.
Arguments CallQuery {Value} q.
Arguments CallInsert {Value} table.
Arguments CallDelete {Value} id.

Definition is_read {Value} (c : Call Value) : bool :=
  match c with
  | CallGet _ | CallSystemGet _ | CallQuery _ => true
  | CallInsert _ | CallDelete _ => false
  end.

(** [GenericDatabaseReader]: [db.get], [db.system.get] and the result stream
    of an index query, each a function of the store state [S]. *)
Record GenericDatabaseReader (S Value Document : Type) : Type := {
  get : S -> Value -> Answer (option Document);
  system_get : S -> Value -> Answer (option Document);
  run_query : S -> Query Value -> Answer (list Document)
}.

(** [GenericDatabaseWriter] adds the writes ([ctx.db] of a mutation). *)
Record GenericDatabaseWriter (S Value Document : Type) : Type := {
  reader :> GenericDatabaseReader S Value Document;
  insert : S -> string -> Document -> Answer (Value * S);
  delete : S -> Value -> Answer S
}.

(** The world a helper runs in: the store and the calls made so far. *)
Record World (S Value : Type) : Type := mkWorld {
  store : S;
  calls : list (Call Value)
}.

Definition record {S Value} (c : Call Value) (w : World S Value) : World S Value :=
  mkWorld (store w) (calls w ++ [c]).

Unset Implicit Arguments.

(** ** Asynchronous computations *)

(** An [async] body: it runs in a world, settles, and leaves a world. *)
Definition M (S Value A : Type) : Type := World S Value -> Settled A * World S Value.

Section Async.
Context {S Value : Type}.

(** [const a = await m; ...]: a rejection of [m] ends the body. *)
Definition bind {A B} (m : M S Value A) (k : A -> M S Value B) : M S Value B :=
  fun w =>
    match m w with
    | (Fulfilled a, w') => k a w'
    | (Rejected e, w') => (Rejected e, w')
    end.

(** [try { body } catch { handler }]: the handler does not bind the
    exception. *)
Definition try_catch {A} (body handler : M S Value A) : M S Value A :=
  fun w =>
    match body w with
    | (Fulfilled a, w') => (Fulfilled a, w')
    | (Rejected _, w') => handler w'
    end.

(** A synchronous function that may throw, called inside an [async] body. *)
Definition lift {A} (r : Settled A) : M S Value A := fun w => (r, w).

(** Modelled from the spec: the mapping half of asyncMap, a function of the
    package's index.ts, which is not among the sources.  The spec describes
    asyncMap as map-then-await-all: the transform is started on every item
    in iteration order, the results are gathered in input order, and the
    first absent or failed item turns the whole call into a failure with no
    partial result.  [dispatch_each] starts (and here runs) each item's
    body.  The interleaving of the bodies' calls is not modelled: each body's
    calls are recorded together, in item order. *)
Fixpoint dispatch_each {A B} (asyncTransform : A -> M S Value B) (items : list A)
    (w : World S Value) : list (Settled B) * World S Value :=
  match items with
  | [] => ([], w)
  | item :: rest =>
      let (r, w1) := asyncTransform item w in
      let (rs, w2) := dispatch_each asyncTransform rest w1 in
      (r :: rs, w2)
  end.

(** Modelled from the spec: the gathering half of asyncMap (await all, in
    input order): the values when every promise is fulfilled, otherwise the
    error of the first rejected one. *)
Fixpoint await_all {B} (promises : list (Settled B)) : Settled (list B) :=
  match promises with
  | [] => Fulfilled []
  | Rejected e :: _ => Rejected e
  | Fulfilled b :: rest =>
      match await_all rest with
      | Fulfilled bs => Fulfilled (b :: bs)
      | Rejected e => Rejected e
      end
  end.

(** Modelled from the spec: asyncMap itself, map then await all. *)
Definition asyncMap {A B} (items : list A) (asyncTransform : A -> M S Value B)
    : M S Value (list B) :=
  fun w =>
    let (promises, w') := dispatch_each asyncTransform items w in
    (await_all promises, w').
End Async.

(** Modelled from the spec: nullThrows, of the package's index.ts, which is
    not among the sources.  An absent value raises the missing-record error
    with the message passed, a present one is returned. *)
Definition nullThrows {T} (doc : option T) (message : option string) : Settled T :=
  match doc with
  | Some d => Fulfilled d
  | None => Rejected (NullThrown message)
  end.

(** The [??] of [fieldArg[0] ?? index]. *)
Definition nullish {A} (a : option A) (default : A) : A :=
  match a with
  | Some x => x
  | None => default
  end.

Declare Scope async_scope.
Delimit Scope async_scope with async.
Notation "x <- m ;; k" := (bind m (fun x => k))
  (at level 61, m at next level, right associativity) : async_scope.
Notation "a ?? b" := (nullish a b) (at level 40, left associativity) : async_scope.
Local Open Scope async_scope.

(** ** The helpers *)

Section Relationships.
Context {S Value Document : Type}.

(** [link[toField]]: reading a field of a document. *)
Variable read_field : Document -> string -> Value.

(** [`${value}`]: how a value prints inside a template literal. *)
Variable to_text : Value -> string.

Variable db : GenericDatabaseReader S Value Document.

(** [await db.get(id)]. *)
Definition db_get (id : Value) : M S Value (option Document) :=
  fun w => (settle (get db (store w) id), record (CallGet id) w).

(** [await db.system.get(id)]. *)
Definition db_system_get (id : Value) : M S Value (option Document) :=
  fun w => (settle (system_get db (store w) id), record (CallSystemGet id) w).

(** [.collect()]: every document the query yields. *)
Definition collect (q : Query Value) : M S Value (list Document) :=
  fun w => (settle (run_query db (store w) q), record (CallQuery q) w).

(** [.unique()], a method of the database's query, by its documented
    contract: the single result, [null] when there is none, an exception
    when there are several. *)
Definition unique (q : Query Value) : M S Value (option Document) :=
  fun w =>
    (match run_query db (store w) q with
     | inl e => Rejected (StoreError e)
     | inr [] => Fulfilled None
     | inr [d] => Fulfilled (Some d)
     | inr (_ :: _ :: _) => Rejected UniqueError
     end, record (CallQuery q) w).

Definition getAll (ids : list Value) : M S Value (list (option Document)) :=
  asyncMap ids db_get.

Definition getAllOrThrow (ids : list Value) : M S Value (list Document) :=
  asyncMap ids (fun id => doc <- db_get id ;; lift (nullThrows doc None)).

Definition getOneFrom (table index : string) (value : Value)
    (fieldArg : option string) : M S Value (option Document) :=
  let field := fieldArg ?? index in
  unique (mkQuery table index field value).

Definition getOneFromOrThrow (table index : string) (value : Value)
    (fieldArg : option string) : M S Value Document :=
  let field := fieldArg ?? index in
  ret <- unique (mkQuery table index field value) ;;
  lift (nullThrows ret
    (Some ("Can't find a document in " ++ table ++ " with field " ++ field
           ++ " equal to " ++ to_text value)%string)).

Definition getManyFrom (table index : string) (value : Value)
    (fieldArg : option string) : M S Value (list Document) :=
  let field := fieldArg ?? index in
  collect (mkQuery table index field value).

(** The arrow function [getManyVia] maps over the join records. *)
Definition getManyVia_link (toField : string) (link : Document)
    : M S Value (option Document) :=
  let id := read_field link toField in
  try_catch (db_get id) (db_system_get id).

Definition getManyVia (table toField index : string) (value : Value)
    (fieldArg : option string) : M S Value (list (option Document)) :=
  links <- getManyFrom table index value fieldArg ;;
  asyncMap links (getManyVia_link toField).

(** The message both branches of [getManyViaOrThrow] pass to [nullThrows]. *)
Definition missing_via (id : Value) (table toField index : string)
    (value : Value) (fieldArg : option string) : string :=
  ("Can't find document " ++ to_text id ++ " referenced in " ++ table
   ++ "'s field " ++ toField ++ " for " ++ (fieldArg ?? index)
   ++ " equal to " ++ to_text value)%string.

(** The arrow function [getManyViaOrThrow] maps over the join records. *)
Definition getManyViaOrThrow_link (table toField index : string) (value : Value)
    (fieldArg : option string) (link : Document) : M S Value Document :=
  let id := read_field link toField in
  try_catch
    (doc <- db_get id ;;
     lift (nullThrows doc (Some (missing_via id table toField index value fieldArg))))
    (doc <- db_system_get id ;;
     lift (nullThrows doc (Some (missing_via id table toField index value fieldArg)))).

Definition getManyViaOrThrow (table toField index : string) (value : Value)
    (fieldArg : option string) : M S Value (list Document) :=
  links <- getManyFrom table index value fieldArg ;;
  asyncMap links (getManyViaOrThrow_link table toField index value fieldArg).

End Relationships.

(** ** Writes, as callers perform them *)

Section Writes.
Context {S Value Document : Type}.
Variable db : GenericDatabaseWriter S Value Document.

(** [await db.insert(table, doc)]: the store changes when the call succeeds. *)
Definition db_insert (table : string) (doc : Document) : M S Value Value :=
  fun w =>
    match insert db (store w) table doc with
    | inl e => (Rejected (StoreError e), record (CallInsert table) w)
    | inr (id, s') => (Fulfilled id, mkWorld s' (calls w ++ [CallInsert table]))
    end.

(** [await db.delete(id)]. *)
Definition db_delete (id : Value) : M S Value unit :=
  fun w =>
    match delete db (store w) id with
    | inl e => (Rejected (StoreError e), record (CallDelete id) w)
    | inr s' => (Fulfilled tt, mkWorld s' (calls w ++ [CallDelete id]))
    end.

End Writes.

(** ** The optional field argument, at the type level *)

(** The tuple type of the rest parameter [...fieldArg]: [[F?]] or [[F]]. *)
Inductive FieldArgs : Type :=
| OptionalField (F : string)
| RequiredField (F : string).

(** [FieldIfDoesntMatchIndex<DataModel, TableName, IndexName>], given the
    field list the data model declares for the index
    ([DataModel[TableName]["indexes"][IndexName]]).  Field and index names
    are string literal types, for which [extends] is equality.  An index
    always has a first field; [None] stands for the empty list, which no
    schema declares. *)
Definition FieldIfDoesntMatchIndex (indexFields : list string) (IndexName : string)
    : option FieldArgs :=
  match indexFields with
  | [] => None
  | F0 :: _ => Some (if String.eqb F0 IndexName then OptionalField F0 else RequiredField F0)
  end.

(** Whether a call that passes [fieldArg] type-checks against the tuple. *)
Definition accepts (t : FieldArgs) (fieldArg : option string) : bool :=
  match t, fieldArg with
  | OptionalField _, None => true
  | RequiredField _, None => false
  | OptionalField F, Some f => String.eqb f F
  | RequiredField F, Some f => String.eqb f F
  end.

Definition well_typed_fieldArg (indexFields : list string) (IndexName : string)
    (fieldArg : option string) : bool :=
  match FieldIfDoesntMatchIndex indexFields IndexName with
  | Some t => accepts t fieldArg
  | None => false
  end.

(** ** An in-memory database

    A small store to run the helpers on: documents are field lists, an
    identifier names its table, and tables whose name starts with an
    underscore are the reserved ones. *)

Module Mem.

Inductive Val : Type :=
| Id (table : string) (key : nat)
| Str (s : string)
| Undefined.

Definition Doc : Type := list (string * Val).

Definition val_eqb (a b : Val) : bool :=
  match a, b with
  | Id t k, Id t' k' => String.eqb t t' && Nat.eqb k k'
  | Str x, Str y => String.eqb x y
  | Undefined, Undefined => true
  | _, _ => false
  end.

Fixpoint read_field (d : Doc) (f : string) : Val :=
  match d with
  | [] => Undefined
  | (g, v) :: d' => if String.eqb g f then v else read_field d' f
  end.

Definition to_text (v : Val) : string :=
  match v with
  | Id t k => (t ++ "/" ++ NilEmpty.string_of_uint (Nat.to_uint k))%string
  | Str x => x
  | Undefined => "undefined"
  end.

Record Store : Type := mkStore {
  rows : list Doc;
  next_key : nat
}.

Definition is_system (table : string) : bool := String.prefix "_" table.

Definition table_of (d : Doc) : string :=
  match read_field d "_id" with
  | Id t _ => t
  | _ => ""
  end.

Definition find_doc (s : Store) (id : Val) : option Doc :=
  find (fun d => val_eqb (read_field d "_id") id) (rows s).

Definition matching (s : Store) (q : Query Val) : list Doc :=
  filter (fun d => String.eqb (table_of d) (q_table q)
                   && val_eqb (read_field d (q_field q)) (q_value q)) (rows s).

(** A database that raises when an identifier is handed to the wrong one of
    [get] and [system.get]. *)
Definition strict : GenericDatabaseReader Store Val Doc := {|
  get s id :=
    match id with
    | Id t _ => if is_system t then inl "get: identifier of a system table"
                else inr (find_doc s id)
    | _ => inl "get: not an identifier"
    end;
  system_get s id :=
    match id with
    | Id t _ => if is_system t then inr (find_doc s id)
                else inl "system.get: identifier of a user table"
    | _ => inl "system.get: not an identifier"
    end;
  run_query s q := inr (matching s q)
|}.


Definition writer (r : GenericDatabaseReader Store Val Doc)
    : GenericDatabaseWriter Store Val Doc := {|
  reader := r;
  insert s table doc :=
    let id := Id table (next_key s) in
    inr (id, mkStore (rows s ++ [("_id", id) :: doc]) (Datatypes.S (next_key s)));
  delete s id :=
    match find_doc s id with
    | Some _ =>
        inr (mkStore (filter (fun d => negb (val_eqb (read_field d "_id") id)) (rows s))
                     (next_key s))
    | None => inl "delete: no such document"
    end
|}.

(** Two users, two sessions, one stored file, and two join tables: the
    second user's join record points at a session, the first user's two
    join records at a session each, and one at the stored file. *)
Definition u1 : Val := Id "users" 0.
Definition u2 : Val := Id "users" 1.
Definition s1 : Val := Id "sessions" 2.
Definition s2 : Val := Id "sessions" 3.
Definition f1 : Val := Id "_storage" 4.

Definition user1 : Doc := [("_id", u1); ("tokenIdentifier", Str "test123")].
Definition user2 : Doc := [("_id", u2); ("tokenIdentifier", Str "test456")].
Definition session1 : Doc := [("_id", s1); ("user", u1)].
Definition session2 : Doc := [("_id", s2); ("user", u1)].
Definition file1 : Doc := [("_id", f1); ("sha256", Str "00")].
Definition edge1 : Doc := [("_id", Id "join_table_example" 5); ("userId", u1); ("sessionId", s2)].
Definition edge2 : Doc := [("_id", Id "join_table_example" 6); ("userId", u1); ("sessionId", s1)].
Definition edge3 : Doc := [("_id", Id "join_table_example" 7); ("userId", u2); ("sessionId", s1)].
Definition edge4 : Doc := [("_id", Id "join_storage_example" 8); ("userId", u1); ("storageId", f1)].

Definition sample : Store :=
  mkStore [user1; user2; session1; session2; file1; edge1; edge2; edge3; edge4] 9.

(** The same store after [db.delete(s2)]. *)
Definition sample_less_s2 : Store :=
  mkStore [user1; user2; session1; file1; edge1; edge2; edge3; edge4] 9.

Definition start (s : Store) : World Store Val := mkWorld s [].

End Mem.

(** ** Vocabulary of the statements *)

Section Vocabulary.
Context {S Value Document : Type}.
Variable db : GenericDatabaseReader S Value Document.

(** A lookup resolves an identifier when it returns a document. *)
Definition resolves (a : Answer (option Document)) : Prop :=
  exists d, a = inr (Some d).

(** A lookup raises. *)
Definition raises {A} (a : Answer A) : Prop :=
  exists e, a = inl e.

(** On store [s] the body [m] settles as [r] and issues exactly the calls
    [cs], leaving the store as it found it. *)
Definition runs_as {A} (m : M S Value A) (s : S) (r : Settled A)
    (cs : list (Call Value)) : Prop :=
  forall w, store w = s -> m w = (r, mkWorld s (calls w ++ cs)).

(** A body that leaves the store untouched and issues reads only. *)
Definition read_only {A} (m : M S Value A) : Prop :=
  forall w,
    store (snd (m w)) = store w /\
    exists issued, calls (snd (m w)) = calls w ++ issued /\ forallb is_read issued = true.

(** What the arrow function of [getAllOrThrow] settles as for [id]. *)
Definition getAllOrThrow_outcome (s : S) (id : Value) : Settled Document :=
  match get db s id with
  | inl e => Rejected (StoreError e)
  | inr r => nullThrows r None
  end.

(** What the arrow function of [getManyVia] settles as for identifier [id],
    and the calls it issues. *)
Definition via_outcome (s : S) (id : Value) : Settled (option Document) :=
  match get db s id with
  | inr r => Fulfilled r
  | inl _ => settle (system_get db s id)
  end.

Definition via_calls (s : S) (id : Value) : list (Call Value) :=
  match get db s id with
  | inr _ => [CallGet id]
  | inl _ => [CallGet id; CallSystemGet id]
  end.

(** The same for the arrow function of [getManyViaOrThrow], [message] being
    the text both of its branches pass to [nullThrows]. *)
Definition viaOrThrow_outcome (s : S) (message : string) (id : Value) : Settled Document :=
  match get db s id with
  | inr (Some d) => Fulfilled d
  | _ =>
      match system_get db s id with
      | inr r => nullThrows r (Some message)
      | inl e => Rejected (StoreError e)
      end
  end.

Definition viaOrThrow_calls (s : S) (id : Value) : list (Call Value) :=
  match get db s id with
  | inr (Some _) => [CallGet id]
  | _ => [CallGet id; CallSystemGet id]
  end.

(** Whether a recorded call is a [db.system.get]. *)
Definition is_system_get (c : Call Value) : bool :=
  match c with
  | CallSystemGet _ => true
  | _ => false
  end.

(** Whether [db.get] raises on an identifier, and whether it returns a
    document for it. *)
Definition primary_raises (s : S) (id : Value) : bool :=
  match get db s id with
  | inl _ => true
  | inr _ => false
  end.

Definition primary_finds (s : S) (id : Value) : bool :=
  match get db s id with
  | inr (Some _) => true
  | _ => false
  end.

End Vocabulary.

(** ** A caller: convex/relationshipsExample.ts *)

(** The object [{ sessions, files, users }] the query [joinTableExample]
    returns. *)
Record JoinTableResult (Document : Type) : Type := mkJoinTableResult {
  sessions : list (option Document);
  files : list (option Document);
  users : list (option Document)
}.

Arguments mkJoinTableResult {Document} sessions files users.

Section Callers.
Context {S Value Document : Type}.
Variable read_field : Document -> string -> Value.
Variable db : GenericDatabaseReader S Value Document.

(** The handler of [joinTableExample], [args] being [{ userId, sid }]. *)
Definition joinTableExample (userId sid : Value) : M S Value (JoinTableResult Document) :=
  sessions <- getManyVia read_field db "join_table_example" "sessionId" "userId" userId None ;;
  files <- getManyVia read_field db "join_storage_example" "storageId" "userId_storageId"
             userId (Some "userId") ;;
  users <- getManyVia read_field db "join_storage_example" "userId" "storageId" sid None ;;
  lift (Fulfilled (mkJoinTableResult sessions files users)).

End Callers.

(** The assertion helpers of the same file.  Each either returns or throws
    an [Error]; the result is the message thrown ([inl]) or the return
    ([inr]).  A JavaScript value that may be [null] is an [option]. *)

Definition decimal (n : nat) : string := NilEmpty.string_of_uint (Nat.to_uint n).

Definition assert (value : bool) : string + unit :=
  if value then inr tt else inl "Assertion failed".

Definition assertLength {A} (list : list A) (length : nat) : string + unit :=
  if negb (Nat.eqb (List.length list) length)
  then inl ("Expected length " ++ decimal length ++ ", got "
            ++ decimal (List.length list))%string
  else inr tt.

(** [Array.prototype.findIndex]: the index of the first element the
    predicate accepts, [-1] when there is none. *)
Fixpoint findIndex {A} (predicate : A -> bool) (array : list A) : Z :=
  match array with
  | [] => (-1)%Z
  | v :: rest =>
      if predicate v then 0%Z
      else let i := findIndex predicate rest in
           if Z.eqb i (-1) then (-1)%Z else (i + 1)%Z
  end.

Definition is_null {A} (v : option A) : bool :=
  match v with
  | None => true
  | Some _ => false
  end.

Definition assertHasNull {A} (value : list (option A)) : string + unit :=
  if Z.eqb (findIndex is_null value) (-1)
  then inl "Expected to find null"
  else inr tt.

Definition assertNull {A} (to_text : A -> string) (value : option A) : string + unit :=
  match value with
  | Some v => inl ("Expected null, got " ++ to_text v)%string
  | None => inr tt
  end.

Definition assertNotNull {A} (value : option A) : string + unit :=
  match value with
  | None => inl "Expected not null, got null"
  | Some _ => inr tt
  end.

(** ** The tables the helpers accept, at the type level *)

(** What the type-level rules look at in a field's declared type: an
    identifier of a table, [any], a union (the empty one is [never]; an
    optional field is the union with [undefined]), or a type that is none
    of these and that no identifier type includes. *)
#[warnings="-register-all"] Inductive FieldType : Type :=
| IdType (TableName : string)
| AnyType
| UnionType (members : list FieldType)
| OtherType.

(** A type is [any] when it is [any] or a union with [any] among its
    members. *)
Fixpoint is_any (type : FieldType) : bool :=
  match type with
  | AnyType => true
  | UnionType members => existsb is_any members
  | IdType _ | OtherType => false
  end.

(** Assignability to [GenericId<TableName>], [TableName] being a union of
    table names: an identifier of one of the tables, and a union each of
    whose members is assignable. *)
Fixpoint assignable_to_id (TableName : list string) (type : FieldType) : bool :=
  match type with
  | IdType target => existsb (String.eqb target) TableName
  | AnyType => true
  | UnionType members => forallb (assignable_to_id TableName) members
  | OtherType => false
  end.

(** Whether the conditional type [type extends GenericId<TableName> ? ... :
    never] takes its first branch: it does when the type is assignable, and
    also for [any], on which a conditional type takes both branches. *)
Definition extends_GenericId (TableName : list string) (type : FieldType) : bool :=
  is_any type || assignable_to_id TableName type.

(** [DataModel[TableName]]: the field paths of a table with their types
    ([_id] among them) and its indexes with their field lists. *)
Record TableInfo : Type := mkTableInfo {
  fieldPaths : list (string * FieldType);
  indexes : list (string * list string)
}.

Definition GenericDataModel : Type := list (string * TableInfo).

Definition TableNamesInDataModel (DataModel : GenericDataModel) : list string :=
  map fst DataModel.

(** [UserIndexes]: the index names, [by_creation_time] excluded. *)
Definition is_user_index (IndexName : string) : bool :=
  negb (String.eqb IndexName "by_creation_time").

Definition UserIndexes (t : TableInfo) : list string :=
  filter is_user_index (map fst (indexes t)).

(** [TablesWithLookups]: the tables whose [UserIndexes] is not [never]. *)
Definition has_lookups (t : TableInfo) : bool :=
  match UserIndexes t with
  | [] => false
  | _ :: _ => true
  end.

Definition TablesWithLookups (DataModel : GenericDataModel) : list string :=
  map fst (filter (fun entry => has_lookups (snd entry)) DataModel).

(** [LookupFieldPaths]: the union, over the user indexes, of
    [indexes[Index][0]]; [None] is the [undefined] of an empty field list. *)
Definition LookupFieldPaths (t : TableInfo) : list (option string) :=
  map (fun entry => hd_error (snd entry))
      (filter (fun entry => is_user_index (fst entry)) (indexes t)).

(** [IdFilePaths<DataModel, InTableName, TableName>]: the field paths, other
    than [_id], whose type extends [GenericId<TableName>], [TableName] being
    a union of table names. *)
Definition is_id_path (TableName : list string) (field : string * FieldType) : bool :=
  extends_GenericId TableName (snd field) && negb (String.eqb (fst field) "_id").

Definition IdFilePaths (t : TableInfo) (TableName : list string) : list string :=
  map fst (filter (is_id_path TableName) (fieldPaths t)).

(** [LookupFieldPaths extends FieldPath]: a union extends a literal when
    each of its members is that literal. *)
Definition extends_literal (union : list (option string)) (FieldPath : string) : bool :=
  forallb (fun member =>
             match member with
             | Some f => String.eqb f FieldPath
             | None => false
             end) union.

(** [LookupAndIdFilePaths]: [true] unless every identifier field path is the
    one field all lookups start with ([never]).  [SystemTableNames] comes
    from the database's own typings. *)
Definition LookupAndIdFilePaths (SystemTableNames : list string)
    (DataModel : GenericDataModel) (t : TableInfo) : bool :=
  existsb (fun FieldPath => negb (extends_literal (LookupFieldPaths t) FieldPath))
          (IdFilePaths t (TableNamesInDataModel DataModel ++ SystemTableNames)).

(** [JoinTables]: the tables with lookups whose [LookupAndIdFilePaths] is
    not [never]. *)
Definition JoinTables (SystemTableNames : list string) (DataModel : GenericDataModel)
    : list string :=
  map fst
    (filter (fun entry => has_lookups (snd entry)
                          && LookupAndIdFilePaths SystemTableNames DataModel (snd entry))
            DataModel).

(** The tables the calls of relationshipsExample.ts rely on. *)
Module Schema.

Definition SystemTableNames : list string := ["_scheduled_functions"; "_storage"].

Definition users : TableInfo :=
  mkTableInfo [("_id", IdType "users"); ("name", OtherType); ("tokenIdentifier", OtherType)]
              [("by_creation_time", ["_creationTime"]); ("tokenIdentifier", ["tokenIdentifier"])].

Definition sessions : TableInfo :=
  mkTableInfo [("_id", IdType "sessions"); ("user", IdType "users"); ("room", OtherType);
               ("updated", OtherType); ("data", AnyType)]
              [("by_creation_time", ["_creationTime"])].

Definition presence : TableInfo :=
  mkTableInfo [("_id", IdType "presence"); ("user", IdType "users"); ("room", OtherType);
               ("updated", OtherType); ("data", AnyType)]
              [("by_creation_time", ["_creationTime"]); ("user_room", ["user"; "room"])].

(** [presence] with its [data] field left out. *)
Definition presence_without_data : TableInfo :=
  mkTableInfo [("_id", IdType "presence"); ("user", IdType "users"); ("room", OtherType);
               ("updated", OtherType)]
              [("by_creation_time", ["_creationTime"]); ("user_room", ["user"; "room"])].

Definition join_table_example : TableInfo :=
  mkTableInfo [("_id", IdType "join_table_example"); ("userId", IdType "users");
               ("sessionId", IdType "sessions")]
              [("by_creation_time", ["_creationTime"]); ("userId", ["userId"])].

Definition join_storage_example : TableInfo :=
  mkTableInfo [("_id", IdType "join_storage_example"); ("userId", IdType "users");
               ("storageId", IdType "_storage")]
              [("by_creation_time", ["_creationTime"]);
               ("storageId", ["storageId"]);
               ("userId_storageId", ["userId"; "storageId"])].

Definition DataModel : GenericDataModel :=
  [("users", users); ("sessions", sessions); ("presence", presence);
   ("join_table_example", join_table_example);
   ("join_storage_example", join_storage_example)].

End Schema.

(** * Facts *)

(** ** Gathering settled promises *)

Lemma await_all_fulfilled {B} (rs : list (Settled B)) (bs : list B) :
  await_all rs = Fulfilled bs <-> rs = map Fulfilled bs.
Proof.
  revert bs. induction rs as [|r rs IH]; intros bs; simpl.
  - split; intros H.
    + injection H as <-. reflexivity.
    + destruct bs; [reflexivity | discriminate].
  - destruct r as [b|e].
    + destruct (await_all rs) as [bs'|e'] eqn:E.
      * split; intros H.
        -- injection H as <-. simpl. f_equal. apply IH. reflexivity.
        -- destruct bs as [|b0 bs0]; [discriminate|]. simpl in H.
           injection H as -> H. apply IH in H. injection H as ->. reflexivity.
      * split; intros H; [discriminate|].
        destruct bs as [|b0 bs0]; [discriminate|]. simpl in H.
        injection H as _ H. apply IH in H. discriminate.
    + split; intros H; [discriminate|].
      destruct bs; discriminate.
Qed.

Lemma await_all_rejected {B} (rs : list (Settled B)) (e : Error) :
  await_all rs = Rejected e -> In (Rejected e) rs.
Proof.
  induction rs as [|r rs IH]; simpl; intros H; [discriminate|].
  destruct r as [b|e'].
  - destruct (await_all rs); [discriminate|]. right. apply IH. exact H.
  - injection H as ->. left. reflexivity.
Qed.

Lemma await_all_some_rejected {B} (rs : list (Settled B)) (e : Error) :
  In (Rejected e) rs -> exists e', await_all rs = Rejected e'.
Proof.
  induction rs as [|r rs IH]; simpl; intros H; [contradiction|].
  destruct r as [b|e0].
  - destruct H as [H|H]; [discriminate|].
    destruct (IH H) as [e' ->]. eexists; reflexivity.
  - eexists; reflexivity.
Qed.

Lemma await_all_total {B} (rs : list (Settled B)) :
  (forall r, In r rs -> exists b, r = Fulfilled b) ->
  exists bs, await_all rs = Fulfilled bs.
Proof.
  intros H. destruct (await_all rs) as [bs|e] eqn:E; [eexists; reflexivity|].
  apply await_all_rejected in E. destruct (H _ E) as [b Hb]. discriminate.
Qed.

(** ** How bodies run *)

Section Running.
Context {S Value Document : Type}.
Variable read_field : Document -> string -> Value.
Variable to_text : Value -> string.
Variable db : GenericDatabaseReader S Value Document.

Lemma runs_as_at {A} (m : M S Value A) s r cs (w : World S Value) :
  runs_as m s r cs -> store w = s ->
  fst (m w) = r /\ store (snd (m w)) = store w /\ calls (snd (m w)) = calls w ++ cs.
Proof.
  intros H Hs. rewrite (H w Hs). simpl. auto.
Qed.

Lemma runs_as_lift {A} (r : Settled A) (s : S) :
  runs_as (Value := Value) (lift r) s r [].
Proof.
  intros [s0 cs0] Hs. simpl in Hs. subst. unfold lift. simpl.
  rewrite app_nil_r. reflexivity.
Qed.

Lemma runs_as_bind {A B} (m : M S Value A) (k : A -> M S Value B) s a cs r cs' :
  runs_as m s (Fulfilled a) cs -> runs_as (k a) s r cs' ->
  runs_as (bind m k) s r (cs ++ cs').
Proof.
  intros Hm Hk w Hs. unfold bind. rewrite (Hm w Hs).
  rewrite (Hk (mkWorld s (calls w ++ cs)) eq_refl). simpl.
  rewrite app_assoc. reflexivity.
Qed.

Lemma runs_as_bind_rejected {A B} (m : M S Value A) (k : A -> M S Value B) s e cs :
  runs_as m s (Rejected e) cs -> runs_as (bind m k) s (Rejected e) cs.
Proof.
  intros Hm w Hs. unfold bind. rewrite (Hm w Hs). reflexivity.
Qed.

Lemma runs_as_try {A} (body handler : M S Value A) s a cs :
  runs_as body s (Fulfilled a) cs -> runs_as (try_catch body handler) s (Fulfilled a) cs.
Proof.
  intros Hb w Hs. unfold try_catch. rewrite (Hb w Hs). reflexivity.
Qed.

Lemma runs_as_catch {A} (body handler : M S Value A) s e cs r cs' :
  runs_as body s (Rejected e) cs -> runs_as handler s r cs' ->
  runs_as (try_catch body handler) s r (cs ++ cs').
Proof.
  intros Hb Hh w Hs. unfold try_catch. rewrite (Hb w Hs).
  rewrite (Hh (mkWorld s (calls w ++ cs)) eq_refl). simpl.
  rewrite app_assoc. reflexivity.
Qed.

Lemma runs_as_db_get s id :
  runs_as (db_get db id) s (settle (get db s id)) [CallGet id].
Proof. intros w Hs. unfold db_get, record. rewrite Hs. reflexivity. Qed.

Lemma runs_as_db_system_get s id :
  runs_as (db_system_get db id) s (settle (system_get db s id)) [CallSystemGet id].
Proof. intros w Hs. unfold db_system_get, record. rewrite Hs. reflexivity. Qed.

Lemma runs_as_collect s q :
  runs_as (collect db q) s (settle (run_query db s q)) [CallQuery q].
Proof. intros w Hs. unfold collect, record. rewrite Hs. reflexivity. Qed.

Lemma runs_as_unique s q :
  runs_as (unique db q) s
    (match run_query db s q with
     | inl e => Rejected (StoreError e)
     | inr [] => Fulfilled None
     | inr [d] => Fulfilled (Some d)
     | inr (_ :: _ :: _) => Rejected UniqueError
     end) [CallQuery q].
Proof. intros w Hs. unfold unique, record. rewrite Hs. reflexivity. Qed.

(** Every item's body runs, in order, whatever the others settle as. *)
Lemma runs_as_asyncMap {A B} (f : A -> M S Value B) (g : A -> Settled B)
    (c : A -> list (Call Value)) s (items : list A) :
  (forall x, In x items -> runs_as (f x) s (g x) (c x)) ->
  runs_as (asyncMap items f) s (await_all (map g items)) (flat_map c items).
Proof.
  intros H w Hs. unfold asyncMap.
  assert (E : dispatch_each f items w
              = (map g items, mkWorld s (calls w ++ flat_map c items))).
  { revert w Hs. induction items as [|x items IH]; intros w Hs; simpl.
    - rewrite app_nil_r. destruct w; simpl in *; subst; reflexivity.
    - rewrite (H x (or_introl eq_refl) w Hs).
      rewrite (IH (fun y Hy => H y (or_intror Hy)) (mkWorld s (calls w ++ c x)) eq_refl).
      simpl. rewrite app_assoc. reflexivity. }
  rewrite E. reflexivity.
Qed.

Lemma runs_as_via_link s toField link :
  runs_as (getManyVia_link read_field db toField link) s
    (via_outcome db s (read_field link toField))
    (via_calls db s (read_field link toField)).
Proof.
  unfold getManyVia_link, via_outcome, via_calls.
  set (id := read_field link toField).
  pose proof (runs_as_db_get s id) as Hg.
  destruct (get db s id) as [e|r]; simpl in Hg.
  - apply (runs_as_catch _ _ s (StoreError e) [CallGet id] _ [CallSystemGet id] Hg).
    apply runs_as_db_system_get.
  - apply runs_as_try. exact Hg.
Qed.

Lemma runs_as_viaOrThrow_link s table toField index value fieldArg link :
  runs_as (getManyViaOrThrow_link read_field to_text db table toField index value fieldArg link) s
    (viaOrThrow_outcome db s
       (missing_via to_text (read_field link toField) table toField index value fieldArg)
       (read_field link toField))
    (viaOrThrow_calls db s (read_field link toField)).
Proof.
  unfold getManyViaOrThrow_link, viaOrThrow_outcome, viaOrThrow_calls.
  set (id := read_field link toField).
  set (msg := missing_via to_text id table toField index value fieldArg).
  pose proof (runs_as_db_get s id) as Hg.
  pose proof (runs_as_db_system_get s id) as Hs.
  assert (Hhandler : runs_as
            (doc <- db_system_get db id ;; lift (nullThrows doc (Some msg))) s
            (match system_get db s id with
             | inr r => nullThrows r (Some msg)
             | inl e => Rejected (StoreError e)
             end) [CallSystemGet id]).
  { destruct (system_get db s id) as [e|r]; simpl in Hs.
    - apply runs_as_bind_rejected. exact Hs.
    - change [CallSystemGet id] with ([CallSystemGet id] ++ []).
      eapply runs_as_bind; [exact Hs | apply runs_as_lift]. }
  destruct (get db s id) as [e|[d|]]; simpl in Hg.
  - apply (runs_as_catch _ _ s (StoreError e) [CallGet id] _ [CallSystemGet id]);
      [|exact Hhandler].
    apply runs_as_bind_rejected. exact Hg.
  - apply runs_as_try. change [CallGet id] with ([CallGet id] ++ []).
    eapply runs_as_bind; [exact Hg | apply runs_as_lift].
  - apply (runs_as_catch _ _ s (NullThrown (Some msg)) [CallGet id] _ [CallSystemGet id]);
      [|exact Hhandler].
    change [CallGet id] with ([CallGet id] ++ []).
    eapply runs_as_bind; [exact Hg | apply runs_as_lift].
Qed.

(** ** How the helpers run *)

Lemma runs_as_getAll s ids :
  runs_as (getAll db ids) s
    (await_all (map (fun id => settle (get db s id)) ids))
    (flat_map (fun id => [CallGet id]) ids).
Proof.
  unfold getAll. apply runs_as_asyncMap. intros id _. apply runs_as_db_get.
Qed.

Lemma runs_as_getAllOrThrow s ids :
  runs_as (getAllOrThrow db ids) s
    (await_all (map (getAllOrThrow_outcome db s) ids))
    (flat_map (fun id => [CallGet id]) ids).
Proof.
  unfold getAllOrThrow. apply runs_as_asyncMap. intros id _.
  unfold getAllOrThrow_outcome.
  pose proof (runs_as_db_get s id) as Hg.
  destruct (get db s id) as [e|r]; simpl in Hg.
  - apply runs_as_bind_rejected. exact Hg.
  - change [CallGet id] with ([CallGet id] ++ []).
    eapply runs_as_bind; [exact Hg | apply runs_as_lift].
Qed.

Lemma runs_as_getOneFrom s table index value fieldArg :
  let q := mkQuery table index (fieldArg ?? index) value in
  runs_as (getOneFrom db table index value fieldArg) s
    (match run_query db s q with
     | inl e => Rejected (StoreError e)
     | inr [] => Fulfilled None
     | inr [d] => Fulfilled (Some d)
     | inr (_ :: _ :: _) => Rejected UniqueError
     end) [CallQuery q].
Proof. intros q. unfold getOneFrom. apply runs_as_unique. Qed.

Lemma runs_as_getOneFromOrThrow s table index value fieldArg :
  let q := mkQuery table index (fieldArg ?? index) value in
  runs_as (getOneFromOrThrow to_text db table index value fieldArg) s
    (match run_query db s q with
     | inl e => Rejected (StoreError e)
     | inr [] =>
         Rejected (NullThrown (Some
           ("Can't find a document in " ++ table ++ " with field "
            ++ (fieldArg ?? index) ++ " equal to " ++ to_text value)%string))
     | inr [d] => Fulfilled d
     | inr (_ :: _ :: _) => Rejected UniqueError
     end) [CallQuery q].
Proof.
  intros q. unfold getOneFromOrThrow. fold q.
  pose proof (runs_as_unique s q) as Hu.
  destruct (run_query db s q) as [e|[|d [|d' rows]]].
  - apply runs_as_bind_rejected. exact Hu.
  - change [CallQuery q] with ([CallQuery q] ++ []).
    eapply runs_as_bind; [exact Hu | apply runs_as_lift].
  - change [CallQuery q] with ([CallQuery q] ++ []).
    eapply runs_as_bind; [exact Hu | apply runs_as_lift].
  - apply runs_as_bind_rejected. exact Hu.
Qed.

Lemma runs_as_getManyFrom s table index value fieldArg :
  let q := mkQuery table index (fieldArg ?? index) value in
  runs_as (getManyFrom db table index value fieldArg) s
    (settle (run_query db s q)) [CallQuery q].
Proof. intros q. unfold getManyFrom. apply runs_as_collect. Qed.

Lemma runs_as_getManyVia s table toField index value fieldArg :
  let q := mkQuery table index (fieldArg ?? index) value in
  runs_as (getManyVia read_field db table toField index value fieldArg) s
    (match run_query db s q with
     | inl e => Rejected (StoreError e)
     | inr links =>
         await_all (map (fun link => via_outcome db s (read_field link toField)) links)
     end)
    (CallQuery q ::
     match run_query db s q with
     | inl _ => []
     | inr links => flat_map (fun link => via_calls db s (read_field link toField)) links
     end).
Proof.
  intros q. unfold getManyVia.
  pose proof (runs_as_getManyFrom s table index value fieldArg) as Hq.
  simpl in Hq. fold q in Hq.
  destruct (run_query db s q) as [e|links]; simpl in Hq.
  - apply runs_as_bind_rejected. exact Hq.
  - change (CallQuery q :: ?l) with ([CallQuery q] ++ l).
    eapply runs_as_bind; [exact Hq|].
    apply (runs_as_asyncMap (getManyVia_link read_field db toField)
             (fun link => via_outcome db s (read_field link toField))
             (fun link => via_calls db s (read_field link toField))).
    intros link _. apply runs_as_via_link.
Qed.

Lemma runs_as_getManyViaOrThrow s table toField index value fieldArg :
  let q := mkQuery table index (fieldArg ?? index) value in
  let outcome link :=
    viaOrThrow_outcome db s
      (missing_via to_text (read_field link toField) table toField index value fieldArg)
      (read_field link toField) in
  runs_as (getManyViaOrThrow read_field to_text db table toField index value fieldArg) s
    (match run_query db s q with
     | inl e => Rejected (StoreError e)
     | inr links => await_all (map outcome links)
     end)
    (CallQuery q ::
     match run_query db s q with
     | inl _ => []
     | inr links => flat_map (fun link => viaOrThrow_calls db s (read_field link toField)) links
     end).
Proof.
  intros q outcome. unfold getManyViaOrThrow.
  pose proof (runs_as_getManyFrom s table index value fieldArg) as Hq.
  simpl in Hq. fold q in Hq.
  destruct (run_query db s q) as [e|links]; simpl in Hq.
  - apply runs_as_bind_rejected. exact Hq.
  - change (CallQuery q :: ?l) with ([CallQuery q] ++ l).
    eapply runs_as_bind; [exact Hq|].
    apply (runs_as_asyncMap
             (getManyViaOrThrow_link read_field to_text db table toField index value fieldArg)
             outcome
             (fun link => viaOrThrow_calls db s (read_field link toField))).
    intros link _. apply runs_as_viaOrThrow_link.
Qed.

End Running.

(** ** Batch fetch *)

Section BatchFetch.
Context {S Value Document : Type}.
Variable db : GenericDatabaseReader S Value Document.

Lemma nth_error_map_some {A B} (f : A -> B) (l : list A) (i : nat) (x : A) :
  nth_error l i = Some x -> nth_error (map f l) i = Some (f x).
Proof.
  intros H. rewrite nth_error_map, H. reflexivity.
Qed.

(** C4: when [db.get] answers every identifier of [ids] (it does not raise),
    [getAll] returns a sequence as long as [ids] whose element at each
    position is what the store's [get] yields for the identifier at that
    position, absent exactly when the store has no document for it. *)
Theorem getAll_in_input_order (w : World S Value) (ids : list Value) :
  (forall id, In id ids -> exists r, get db (store w) id = inr r) ->
  exists out,
    fst (getAll db ids w) = Fulfilled out /\
    List.length out = List.length ids /\
    forall i id, nth_error ids i = Some id ->
      exists o, nth_error out i = Some o /\
                get db (store w) id = inr o /\
                (o = None <-> get db (store w) id = inr None).
Proof.
  intros Hret.
  destruct (runs_as_at _ _ _ _ w (runs_as_getAll db (store w) ids) eq_refl) as [Hres _].
  destruct (await_all_total (map (fun id => settle (get db (store w) id)) ids)) as [out Hout].
  { intros r Hr. apply in_map_iff in Hr. destruct Hr as [id [<- Hid]].
    destruct (Hret id Hid) as [o ->]. exists o. reflexivity. }
  exists out. rewrite Hres. split; [exact Hout|].
  apply await_all_fulfilled in Hout.
  split.
  - apply (f_equal (@List.length _)) in Hout. rewrite !length_map in Hout. symmetry. exact Hout.
  - intros i id Hi.
    pose proof (nth_error_map_some (fun id => settle (get db (store w) id)) ids i id Hi) as Hm.
    rewrite Hout, nth_error_map in Hm.
    destruct (nth_error out i) as [o|]; [|discriminate].
    simpl in Hm. exists o. split; [reflexivity|].
    destruct (get db (store w) id) as [e|r]; simpl in Hm; [discriminate|].
    injection Hm as ->. split; [reflexivity|].
    split; intros H; [rewrite H; reflexivity | injection H as ->; reflexivity].
Qed.

(** [getAllOrThrow] returns exactly when every element [getAll] yields is a
    document, and then returns those documents. *)
Lemma getAllOrThrow_returns_iff (w : World S Value) (ids : list Value) (docs : list Document) :
  fst (getAllOrThrow db ids w) = Fulfilled docs <->
  fst (getAll db ids w) = Fulfilled (map Some docs).
Proof.
  destruct (runs_as_at _ _ _ _ w (runs_as_getAll db (store w) ids) eq_refl) as [-> _].
  destruct (runs_as_at _ _ _ _ w (runs_as_getAllOrThrow db (store w) ids) eq_refl) as [-> _].
  rewrite !await_all_fulfilled. rewrite map_map.
  revert docs. induction ids as [|id ids IH]; intros docs; simpl.
  - destruct docs; simpl; split; intros H; try reflexivity; discriminate.
  - unfold getAllOrThrow_outcome at 1.
    destruct docs as [|d docs]; simpl; [split; discriminate|].
    destruct (get db (store w) id) as [e|[d'|]]; simpl;
      split; intros H; try discriminate;
      injection H as -> H; f_equal; apply IH; exact H.
Qed.

(** Whatever identifier is missing, the error [getAllOrThrow] raises for it
    is the same: [nullThrows] is given no message, and it never sees the
    identifier. *)
Lemma getAllOrThrow_error (w : World S Value) (ids : list Value) (e : Error) :
  fst (getAllOrThrow db ids w) = Rejected e ->
  exists id, In id ids /\
    ((get db (store w) id = inr None /\ e = NullThrown None) \/
     (exists x, get db (store w) id = inl x /\ e = StoreError x)).
Proof.
  destruct (runs_as_at _ _ _ _ w (runs_as_getAllOrThrow db (store w) ids) eq_refl) as [-> _].
  intros H. apply await_all_rejected in H. apply in_map_iff in H.
  destruct H as [id [H Hid]]. exists id. split; [exact Hid|].
  unfold getAllOrThrow_outcome in H.
  destruct (get db (store w) id) as [x|[d|]]; simpl in H.
  - right. exists x. injection H as <-. auto.
  - discriminate.
  - left. injection H as <-. auto.
Qed.

End BatchFetch.

(** ** Index lookup *)

Section IndexLookup.
Context {S Value Document : Type}.
Variable to_text : Value -> string.
Variable db : GenericDatabaseReader S Value Document.

(** C5: [getOneFrom] returns absent exactly when the index query yields no
    document, and returns a document exactly when the query yields that
    document alone.  The field is the one passed, or the index name. *)
Theorem getOneFrom_absent_iff_no_match (w : World S Value) (table index : string)
    (value : Value) (fieldArg : option string) :
  let q := mkQuery table index (fieldArg ?? index) value in
  (fst (getOneFrom db table index value fieldArg w) = Fulfilled None
   <-> run_query db (store w) q = inr []) /\
  (forall d, fst (getOneFrom db table index value fieldArg w) = Fulfilled (Some d)
             <-> run_query db (store w) q = inr [d]).
Proof.
  intros q.
  destruct (runs_as_at _ _ _ _ w
              (runs_as_getOneFrom db (store w) table index value fieldArg) eq_refl)
    as [-> _].
  fold q. destruct (run_query db (store w) q) as [e|[|d0 [|d1 rows]]].
  - split; [|intros d]; split; discriminate.
  - split; [split; reflexivity|]. intros d; split; discriminate.
  - split; [split; discriminate|].
    intros d; split; intros H; injection H as ->; reflexivity.
  - split; [|intros d]; split; discriminate.
Qed.

(** C7: [getManyFrom] settles as the index query does; when the query
    yields documents, they are returned as they are. *)
Theorem getManyFrom_is_the_query (w : World S Value) (table index : string)
    (value : Value) (fieldArg : option string) :
  let q := mkQuery table index (fieldArg ?? index) value in
  fst (getManyFrom db table index value fieldArg w) = settle (run_query db (store w) q) /\
  (forall rows, run_query db (store w) q = inr rows <->
                fst (getManyFrom db table index value fieldArg w) = Fulfilled rows).
Proof.
  intros q.
  destruct (runs_as_at _ _ _ _ w
              (runs_as_getManyFrom db (store w) table index value fieldArg) eq_refl)
    as [Hres _].
  fold q in Hres. split; [exact Hres|].
  intros rows. rewrite Hres.
  destruct (run_query db (store w) q) as [e|rows']; simpl.
  - split; discriminate.
  - split; intros H; injection H as ->; reflexivity.
Qed.

(** C10: when the index query yields more than one document, [getOneFrom]
    and [getOneFromOrThrow] both raise the error of [unique()]; neither
    returns one of the matches. *)
Theorem getOneFrom_several_matches_raise (w : World S Value) (table index : string)
    (value : Value) (fieldArg : option string) (rows : list Document) :
  run_query db (store w) (mkQuery table index (fieldArg ?? index) value) = inr rows ->
  2 <= List.length rows ->
  fst (getOneFrom db table index value fieldArg w) = Rejected UniqueError /\
  fst (getOneFromOrThrow to_text db table index value fieldArg w) = Rejected UniqueError.
Proof.
  intros Hq Hlen.
  destruct (runs_as_at _ _ _ _ w
              (runs_as_getOneFrom db (store w) table index value fieldArg) eq_refl)
    as [-> _].
  destruct (runs_as_at _ _ _ _ w
              (runs_as_getOneFromOrThrow to_text db (store w) table index value fieldArg)
              eq_refl)
    as [-> _].
  rewrite Hq.
  destruct rows as [|d0 [|d1 rows]]; simpl in Hlen; try lia.
  split; reflexivity.
Qed.

(** What [getOneFromOrThrow] raises when nothing matches. *)
Lemma getOneFromOrThrow_no_match (w : World S Value) (table index : string)
    (value : Value) (fieldArg : option string) :
  run_query db (store w) (mkQuery table index (fieldArg ?? index) value) = inr [] ->
  fst (getOneFromOrThrow to_text db table index value fieldArg w)
  = Rejected (NullThrown (Some
      ("Can't find a document in " ++ table ++ " with field "
       ++ (fieldArg ?? index) ++ " equal to " ++ to_text value)%string)).
Proof.
  intros Hq.
  destruct (runs_as_at _ _ _ _ w
              (runs_as_getOneFromOrThrow to_text db (store w) table index value fieldArg)
              eq_refl)
    as [-> _].
  rewrite Hq. reflexivity.
Qed.

End IndexLookup.

(** ** Join traversal *)

Section JoinTraversal.
Context {S Value Document : Type}.
Variable read_field : Document -> string -> Value.
Variable to_text : Value -> string.
Variable db : GenericDatabaseReader S Value Document.

Lemma await_all_pointwise {A B} (g : A -> Settled B) (items : list A) (out : list B) :
  await_all (map g items) = Fulfilled out ->
  List.length out = List.length items /\
  forall i x, nth_error items i = Some x ->
    exists o, nth_error out i = Some o /\ g x = Fulfilled o.
Proof.
  intros H. apply await_all_fulfilled in H. split.
  - apply (f_equal (@List.length _)) in H. rewrite !length_map in H. symmetry. exact H.
  - intros i x Hi.
    pose proof (nth_error_map_some g items i x Hi) as Hm.
    rewrite H, nth_error_map in Hm.
    destruct (nth_error out i) as [o|]; [|discriminate].
    simpl in Hm. injection Hm as Hm. exists o. split; [reflexivity|]. symmetry. exact Hm.
Qed.

Lemma await_all_in {A B} (g : A -> Settled B) (items : list A) (out : list B) (o : B) :
  await_all (map g items) = Fulfilled out ->
  (In o out <-> exists x, In x items /\ g x = Fulfilled o).
Proof.
  intros H. apply await_all_fulfilled in H. split.
  - intros Ho. apply (in_map Fulfilled) in Ho. rewrite <- H in Ho.
    apply in_map_iff in Ho. destruct Ho as [x [Hx Hin]]. exists x. auto.
  - intros [x [Hin Hx]]. apply (in_map g) in Hin. rewrite H, Hx in Hin.
    apply in_map_iff in Hin. destruct Hin as [o' [Ho' Hin]].
    injection Ho' as ->. exact Hin.
Qed.

Lemma via_outcome_fulfilled (s : S) (id : Value) (o : option Document) :
  via_outcome db s id = Fulfilled o <->
  get db s id = inr o \/ (raises (get db s id) /\ system_get db s id = inr o).
Proof.
  unfold via_outcome, raises.
  destruct (get db s id) as [e|r].
  - destruct (system_get db s id) as [e'|r']; simpl; split.
    + discriminate.
    + intros [H|[_ H]]; discriminate.
    + intros H. injection H as ->. right. split; [exists e|]; reflexivity.
    + intros [H|[_ H]]; [discriminate|]. injection H as ->. reflexivity.
  - split.
    + intros H. injection H as ->. left. reflexivity.
    + intros [H|[[e H] _]]; [|discriminate]. injection H as ->. reflexivity.
Qed.

Lemma viaOrThrow_outcome_fulfilled (s : S) (msg : string) (id : Value) (d : Document) :
  viaOrThrow_outcome db s msg id = Fulfilled d <->
  get db s id = inr (Some d) \/
  (~ resolves (get db s id) /\ system_get db s id = inr (Some d)).
Proof.
  unfold viaOrThrow_outcome, resolves.
  destruct (get db s id) as [e|[d0|]].
  - destruct (system_get db s id) as [e'|[d'|]]; simpl; split;
      try discriminate; try (intros [H|[_ H]]; discriminate).
    + intros H. injection H as ->. right. split; [|reflexivity].
      intros [d0 H0]. discriminate.
    + intros [H|[_ H]]; [discriminate|]. injection H as ->. reflexivity.
  - split.
    + intros H. injection H as ->. left. reflexivity.
    + intros [H|[H _]]; [injection H as ->; reflexivity|].
      exfalso. apply H. exists d0. reflexivity.
  - destruct (system_get db s id) as [e'|[d'|]]; simpl; split;
      try discriminate; try (intros [H|[_ H]]; discriminate).
    + intros H. injection H as ->. right. split; [|reflexivity].
      intros [d0 H0]. discriminate.
    + intros [H|[_ H]]; [discriminate|]. injection H as ->. reflexivity.
Qed.

Lemma viaOrThrow_outcome_rejected (s : S) (msg : string) (id : Value) (e : Error) :
  viaOrThrow_outcome db s msg id = Rejected e <->
  ~ resolves (get db s id) /\
  ((system_get db s id = inr None /\ e = NullThrown (Some msg)) \/
   (exists x, system_get db s id = inl x /\ e = StoreError x)).
Proof.
  unfold viaOrThrow_outcome, resolves.
  destruct (get db s id) as [e0|[d0|]].
  - destruct (system_get db s id) as [x|[d'|]]; simpl; split.
    + intros H. injection H as <-. split; [intros [d H]; discriminate|].
      right. exists x. auto.
    + intros [_ [[H _]|[y [H ->]]]]; [discriminate|]. injection H as ->. reflexivity.
    + discriminate.
    + intros [_ [[H _]|[y [H _]]]]; discriminate.
    + intros H. injection H as <-. split; [intros [d H]; discriminate|]. left. auto.
    + intros [_ [[_ ->]|[y [H _]]]]; [reflexivity|discriminate].
  - split; [discriminate|]. intros [H _]. exfalso. apply H. exists d0. reflexivity.
  - destruct (system_get db s id) as [x|[d'|]]; simpl; split.
    + intros H. injection H as <-. split; [intros [d H]; discriminate|].
      right. exists x. auto.
    + intros [_ [[H _]|[y [H ->]]]]; [discriminate|]. injection H as ->. reflexivity.
    + discriminate.
    + intros [_ [[H _]|[y [H _]]]]; discriminate.
    + intros H. injection H as <-. split; [intros [d H]; discriminate|]. left. auto.
    + intros [_ [[_ ->]|[y [H _]]]]; [reflexivity|discriminate].
Qed.


Lemma via_present_then_orThrow (s : S) (msg : Document -> string) (toField : string)
    (links : list Document) (docs : list Document) :
  map (fun link => via_outcome db s (read_field link toField)) links
  = map Fulfilled (map Some docs) ->
  map (fun link => viaOrThrow_outcome db s (msg link) (read_field link toField)) links
  = map Fulfilled docs.
Proof.
  revert docs. induction links as [|link links IH]; intros [|d docs]; simpl;
    intros H; try discriminate; [reflexivity|].
  injection H as Hd H. f_equal; [|apply IH; exact H].
  apply viaOrThrow_outcome_fulfilled.
  apply via_outcome_fulfilled in Hd.
  destruct Hd as [Hd|[[e He] Hd]]; [left; exact Hd|].
  right. split; [|exact Hd]. intros [d0 H0]. rewrite He in H0. discriminate.
Qed.

(** How [getManyViaOrThrow] settles when the Stage-1 lookup returns.  It
    raises exactly when some join record's identifier is resolved neither by
    the primary get nor by the system get.  Whenever [getManyVia] returns a
    sequence with no absent element, it returns the same documents.  What it
    raises is the missing-record error with the message of the join record
    when that record's system get returned absent, and the exception of the
    system get when that raised.  A returned sequence has one document per
    join record.  Where the system get resolves no identifier that the
    primary get answers absent, it raises exactly when the sequence
    [getManyVia] returns has an absent element. *)
Lemma getManyViaOrThrow_raises_iff_unresolved (w : World S Value)
    (table toField index : string) (value : Value) (fieldArg : option string)
    (links : list Document) :
  run_query db (store w) (mkQuery table index (fieldArg ?? index) value) = inr links ->
  ((exists e,
      fst (getManyViaOrThrow read_field to_text db table toField index value fieldArg w)
      = Rejected e)
   <-> exists link, In link links /\
         ~ resolves (get db (store w) (read_field link toField)) /\
         ~ resolves (system_get db (store w) (read_field link toField))) /\
  (forall docs,
     fst (getManyVia read_field db table toField index value fieldArg w)
     = Fulfilled (map Some docs) ->
     fst (getManyViaOrThrow read_field to_text db table toField index value fieldArg w)
     = Fulfilled docs) /\
  (forall e,
     fst (getManyViaOrThrow read_field to_text db table toField index value fieldArg w)
     = Rejected e ->
     exists link, In link links /\
       ((system_get db (store w) (read_field link toField) = inr None /\
         e = NullThrown (Some (missing_via to_text (read_field link toField)
                                 table toField index value fieldArg))) \/
        (exists x, system_get db (store w) (read_field link toField) = inl x /\
                   e = StoreError x))) /\
  (forall docs,
     fst (getManyViaOrThrow read_field to_text db table toField index value fieldArg w)
     = Fulfilled docs ->
     List.length docs = List.length links) /\
  ((forall link, In link links ->
      get db (store w) (read_field link toField) = inr None ->
      ~ resolves (system_get db (store w) (read_field link toField))) ->
   forall out,
     fst (getManyVia read_field db table toField index value fieldArg w) = Fulfilled out ->
     ((exists e,
         fst (getManyViaOrThrow read_field to_text db table toField index value fieldArg w)
         = Rejected e)
      <-> In None out)).
Proof.
  intros Hq.
  destruct (runs_as_at _ _ _ _ w
              (runs_as_getManyViaOrThrow read_field to_text db (store w)
                 table toField index value fieldArg) eq_refl) as [Hthrow _].
  destruct (runs_as_at _ _ _ _ w
              (runs_as_getManyVia read_field db (store w) table toField index value fieldArg)
              eq_refl) as [Hvia _].
  rewrite Hq in Hthrow, Hvia. rewrite Hthrow, Hvia. clear Hthrow Hvia.
  set (msg := fun link => missing_via to_text (read_field link toField)
                            table toField index value fieldArg).
  assert (Hrej : forall e,
            await_all (map (fun link => viaOrThrow_outcome db (store w) (msg link)
                                          (read_field link toField)) links) = Rejected e ->
            exists link, In link links /\
              viaOrThrow_outcome db (store w) (msg link) (read_field link toField)
              = Rejected e).
  { intros e H. apply await_all_rejected in H. apply in_map_iff in H.
    destruct H as [link [H Hl]]. exists link. auto. }
  refine (conj (conj _ _) (conj _ (conj _ (conj _ _))));
    [| | | | |intros Hscoped out Hout; split].
  - intros [e H]. destruct (Hrej e H) as [link [Hl Hout]].
    apply viaOrThrow_outcome_rejected in Hout. destruct Hout as [Hg Hs].
    exists link. split; [exact Hl|]. split; [exact Hg|].
    intros [d Hd]. destruct Hs as [[Hs _]|[x [Hs _]]]; rewrite Hs in Hd; discriminate.
  - intros [link [Hl [Hg Hs]]].
    assert (Hout : exists e, viaOrThrow_outcome db (store w) (msg link)
                               (read_field link toField) = Rejected e).
    { destruct (viaOrThrow_outcome db (store w) (msg link) (read_field link toField))
        as [d|e] eqn:E; [|exists e; reflexivity].
      apply viaOrThrow_outcome_fulfilled in E. exfalso.
      destruct E as [E|[_ E]]; [apply Hg | apply Hs]; exists d; exact E. }
    destruct Hout as [e Hout].
    apply (await_all_some_rejected _ e).
    apply in_map_iff. exists link. auto.
  - intros docs H. apply await_all_fulfilled in H. apply await_all_fulfilled.
    apply (via_present_then_orThrow (store w) msg toField links docs H).
  - intros e H. destruct (Hrej e H) as [link [Hl Hout]].
    apply viaOrThrow_outcome_rejected in Hout. destruct Hout as [_ Hs].
    exists link. split; [exact Hl | exact Hs].
  - intros docs H. apply await_all_pointwise in H. apply H.
  - intros [e H]. destruct (Hrej e H) as [link [Hl Hout']].
    apply viaOrThrow_outcome_rejected in Hout'. destruct Hout' as [Hg Hs].
    apply (await_all_in _ _ _ None Hout). exists link. split; [exact Hl|].
    destruct (await_all_pointwise _ _ _ Hout) as [_ Hnth].
    destruct (In_nth_error _ _ Hl) as [i Hi].
    destruct (Hnth i link Hi) as [o [_ Ho]]. rewrite Ho. f_equal.
    apply via_outcome_fulfilled in Ho.
    destruct o as [d|]; [|reflexivity]. exfalso.
    destruct Ho as [Ho|[_ Ho]].
    + apply Hg. exists d. exact Ho.
    + destruct Hs as [[Hs _]|[x [Hs _]]]; rewrite Hs in Ho; discriminate.
  - intros Hin. apply (await_all_in _ _ _ None Hout) in Hin.
    destruct Hin as [link [Hl Ho]]. apply via_outcome_fulfilled in Ho.
    assert (Hrj : exists e, viaOrThrow_outcome db (store w) (msg link)
                              (read_field link toField) = Rejected e).
    { destruct (viaOrThrow_outcome db (store w) (msg link) (read_field link toField))
        as [d|e] eqn:E; [|exists e; reflexivity].
      apply viaOrThrow_outcome_fulfilled in E. exfalso.
      destruct Ho as [Ho|[[x Hx] Ho]]; destruct E as [E|[_ E]].
      - rewrite Ho in E. discriminate.
      - apply (Hscoped link Hl Ho). exists d. exact E.
      - rewrite Hx in E. discriminate.
      - rewrite Ho in E. discriminate. }
    destruct Hrj as [e Hrj].
    apply (await_all_some_rejected _ e).
    apply in_map_iff. exists link. auto.
Qed.

(** On a database whose system get resolves no identifier the primary get
    answers absent, and on a lookup for which [getManyVia] returns:
    [getManyViaOrThrow] raises exactly when the sequence [getManyVia]
    returns has an absent element, and returns the same documents when it
    has none. *)
Theorem getManyViaOrThrow_raises_iff_absent (w : World S Value)
    (table toField index : string) (value : Value) (fieldArg : option string)
    (links : list Document) (out : list (option Document)) :
  run_query db (store w) (mkQuery table index (fieldArg ?? index) value) = inr links ->
  (forall link, In link links ->
     get db (store w) (read_field link toField) = inr None ->
     ~ resolves (system_get db (store w) (read_field link toField))) ->
  fst (getManyVia read_field db table toField index value fieldArg w) = Fulfilled out ->
  ((exists e,
      fst (getManyViaOrThrow read_field to_text db table toField index value fieldArg w)
      = Rejected e)
   <-> In None out) /\
  (forall docs, out = map Some docs ->
     fst (getManyViaOrThrow read_field to_text db table toField index value fieldArg w)
     = Fulfilled docs).
Proof.
  intros Hq Hscoped Hout.
  destruct (getManyViaOrThrow_raises_iff_unresolved w table toField index value fieldArg
              links Hq) as [_ [Hsame [_ [_ Hiff]]]].
  split.
  - apply (Hiff Hscoped out Hout).
  - intros docs ->. apply Hsame. exact Hout.
Qed.

End JoinTraversal.

(** ** The calls the helpers issue *)

Section Calls.
Context {S Value Document : Type}.
Variable read_field : Document -> string -> Value.
Variable to_text : Value -> string.
Variable db : GenericDatabaseReader S Value Document.

Lemma in_via_calls (s : S) (id id' : Value) :
  In (CallSystemGet id') (via_calls db s id) -> id' = id /\ raises (get db s id).
Proof.
  unfold via_calls, raises. destruct (get db s id) as [e|r]; simpl.
  - intros [H|[H|[]]]; [discriminate|]. injection H as ->. split; [reflexivity|].
    exists e. reflexivity.
  - intros [H|[]]. discriminate.
Qed.

(** The two arrow functions on one join record.  That of [getManyVia]
    calls [db.system.get] only when [db.get] raises: when [db.get] returns,
    absent included, its answer is the output element and [db.get] is the
    only call.  That of [getManyViaOrThrow] calls [db.system.get] also when
    [db.get] returns absent. *)
Lemma fallback_in_the_arrow_functions (w : World S Value)
    (table toField index : string) (value : Value) (fieldArg : option string)
    (link : Document) :
  let id := read_field link toField in
  let message := missing_via to_text id table toField index value fieldArg in
  (forall r, get db (store w) id = inr r ->
     getManyVia_link read_field db toField link w
     = (Fulfilled r, mkWorld (store w) (calls w ++ [CallGet id]))) /\
  (forall e, get db (store w) id = inl e ->
     getManyVia_link read_field db toField link w
     = (settle (system_get db (store w) id),
        mkWorld (store w) (calls w ++ [CallGet id; CallSystemGet id]))) /\
  (get db (store w) id = inr None ->
     getManyViaOrThrow_link read_field to_text db table toField index value fieldArg link w
     = (match system_get db (store w) id with
        | inr r => nullThrows r (Some message)
        | inl x => Rejected (StoreError x)
        end,
        mkWorld (store w) (calls w ++ [CallGet id; CallSystemGet id]))) /\
  (forall id' issued,
     calls (snd (getManyVia read_field db table toField index value fieldArg w))
     = calls w ++ issued ->
     In (CallSystemGet id') issued ->
     exists links link',
       run_query db (store w) (mkQuery table index (fieldArg ?? index) value) = inr links /\
       In link' links /\ read_field link' toField = id' /\
       raises (get db (store w) id')).
Proof.
  intros id message.
  pose proof (runs_as_via_link read_field db (store w) toField link w eq_refl) as Hvia.
  pose proof (runs_as_viaOrThrow_link read_field to_text db (store w)
                table toField index value fieldArg link w eq_refl) as Hthrow.
  fold id in Hvia, Hthrow. fold message in Hthrow.
  unfold via_outcome, via_calls in Hvia.
  unfold viaOrThrow_outcome, viaOrThrow_calls in Hthrow.
  split; [|split; [|split]].
  - intros r Hr. rewrite Hr in Hvia. exact Hvia.
  - intros e He. rewrite He in Hvia. exact Hvia.
  - intros Hn. rewrite Hn in Hthrow. exact Hthrow.
  - intros id' issued Hcalls Hin.
    destruct (runs_as_at _ _ _ _ w
                (runs_as_getManyVia read_field db (store w) table toField index value fieldArg)
                eq_refl) as [_ [_ Hc]].
    rewrite Hc in Hcalls. apply app_inv_head in Hcalls. subst issued.
    destruct Hin as [Hin|Hin]; [discriminate|].
    destruct (run_query db (store w) (mkQuery table index (fieldArg ?? index) value))
      as [e|links]; [contradiction|].
    apply in_flat_map in Hin. destruct Hin as [link' [Hl Hin]].
    apply in_via_calls in Hin. destruct Hin as [-> Hr].
    exists links, link'. auto.
Qed.

Lemma system_get_in_via_calls (s : S) (id id' : Value) :
  In (CallSystemGet id') (via_calls db s id) <-> id' = id /\ raises (get db s id).
Proof.
  split; [apply in_via_calls|].
  intros [-> [e He]]. unfold via_calls. rewrite He. simpl. auto.
Qed.

Lemma system_get_in_viaOrThrow_calls (s : S) (id id' : Value) :
  In (CallSystemGet id') (viaOrThrow_calls db s id) <->
  id' = id /\ ~ resolves (get db s id).
Proof.
  unfold viaOrThrow_calls, resolves.
  destruct (get db s id) as [e|[d|]]; simpl; split.
  - intros [H|[H|[]]]; [discriminate|]. injection H as ->. split; [reflexivity|].
    intros [d H]. discriminate.
  - intros [-> _]. auto.
  - intros [H|[]]. discriminate.
  - intros [_ H]. exfalso. apply H. exists d. reflexivity.
  - intros [H|[H|[]]]; [discriminate|]. injection H as ->. split; [reflexivity|].
    intros [d H]. discriminate.
  - intros [-> _]. auto.
Qed.

Lemma count_in_flat_map {A B} (f : B -> bool) (c : A -> list B) (p : A -> bool)
    (items : list A) :
  (forall x, List.length (filter f (c x)) = if p x then 1 else 0) ->
  List.length (filter f (flat_map c items)) = List.length (filter p items).
Proof.
  intros H. induction items as [|x items IH]; simpl; [reflexivity|].
  rewrite filter_app, length_app, H, IH.
  destruct (p x); reflexivity.
Qed.

(** C9: in [getManyVia] a [db.system.get] is issued for a join record only
    when [db.get] raised on its target: the system gets issued are those of
    the records whose primary get raises, one each, and a record whose
    primary get returns, absent included, has that answer as its output
    element.  In [getManyViaOrThrow] a [db.system.get] is issued for every
    record whose primary get did not return a document, absent included;
    for a record whose primary get returned absent the call fails only when
    the system get does not resolve the target either, and otherwise that
    record's element is the document the system get returned.  (Stated for
    a Stage-1 lookup that returns.) *)
Theorem system_fallback_only_on_exception (w : World S Value)
    (table toField index : string) (value : Value) (fieldArg : option string)
    (links : list Document) :
  run_query db (store w) (mkQuery table index (fieldArg ?? index) value) = inr links ->
  (exists issued,
     calls (snd (getManyVia read_field db table toField index value fieldArg w))
     = calls w ++ issued /\
     (forall id, In (CallSystemGet id) issued <->
        exists link, In link links /\ read_field link toField = id /\
                     raises (get db (store w) id)) /\
     List.length (filter is_system_get issued)
     = List.length (filter (fun link => primary_raises db (store w) (read_field link toField))
                      links)) /\
  (forall out i link r,
     fst (getManyVia read_field db table toField index value fieldArg w) = Fulfilled out ->
     nth_error links i = Some link ->
     get db (store w) (read_field link toField) = inr r ->
     nth_error out i = Some r) /\
  (exists issued,
     calls (snd (getManyViaOrThrow read_field to_text db table toField index value fieldArg w))
     = calls w ++ issued /\
     (forall id, In (CallSystemGet id) issued <->
        exists link, In link links /\ read_field link toField = id /\
                     ~ resolves (get db (store w) id)) /\
     List.length (filter is_system_get issued)
     = List.length (filter (fun link =>
                              negb (primary_finds db (store w) (read_field link toField)))
                      links)) /\
  (forall link, In link links ->
     get db (store w) (read_field link toField) = inr None ->
     (~ resolves (system_get db (store w) (read_field link toField)) ->
      exists e,
        fst (getManyViaOrThrow read_field to_text db table toField index value fieldArg w)
        = Rejected e) /\
     (forall docs i,
        fst (getManyViaOrThrow read_field to_text db table toField index value fieldArg w)
        = Fulfilled docs ->
        nth_error links i = Some link ->
        exists d, system_get db (store w) (read_field link toField) = inr (Some d) /\
                  nth_error docs i = Some d)).
Proof.
  intros Hq.
  destruct (runs_as_at _ _ _ _ w
              (runs_as_getManyVia read_field db (store w) table toField index value fieldArg)
              eq_refl) as [Hvia [_ Hviac]].
  destruct (runs_as_at _ _ _ _ w
              (runs_as_getManyViaOrThrow read_field to_text db (store w)
                 table toField index value fieldArg) eq_refl) as [Hthrow [_ Hthrowc]].
  rewrite Hq in Hvia, Hviac, Hthrow, Hthrowc.
  set (q := mkQuery table index (fieldArg ?? index) value) in *.
  refine (conj _ (conj _ (conj _ _))).
  - eexists. split; [exact Hviac|]. split.
    + intros id. split.
      * intros [H|H]; [discriminate|].
        apply in_flat_map in H. destruct H as [link [Hl H]].
        apply system_get_in_via_calls in H. destruct H as [-> Hr].
        exists link. auto.
      * intros [link [Hl [<- Hr]]]. right.
        apply in_flat_map. exists link. split; [exact Hl|].
        apply system_get_in_via_calls. auto.
    + simpl. apply count_in_flat_map. intros link.
      unfold via_calls, primary_raises.
      destruct (get db (store w) (read_field link toField)); reflexivity.
  - intros out i link r Hout Hi Hr. rewrite Hvia in Hout.
    destruct (await_all_pointwise _ _ _ Hout) as [_ Hnth].
    destruct (Hnth i link Hi) as [o [Ho Hv]].
    unfold via_outcome in Hv. rewrite Hr in Hv. injection Hv as ->. exact Ho.
  - eexists. split; [exact Hthrowc|]. split.
    + intros id. split.
      * intros [H|H]; [discriminate|].
        apply in_flat_map in H. destruct H as [link [Hl H]].
        apply system_get_in_viaOrThrow_calls in H. destruct H as [-> Hr].
        exists link. auto.
      * intros [link [Hl [<- Hr]]]. right.
        apply in_flat_map. exists link. split; [exact Hl|].
        apply system_get_in_viaOrThrow_calls. auto.
    + simpl. apply count_in_flat_map. intros link.
      unfold viaOrThrow_calls, primary_finds.
      destruct (get db (store w) (read_field link toField)) as [e|[d|]]; reflexivity.
  - intros link Hl Hnone. split.
    + intros Hsys. rewrite Hthrow.
      set (msg := missing_via to_text (read_field link toField)
                    table toField index value fieldArg).
      destruct (viaOrThrow_outcome db (store w) msg (read_field link toField))
        as [d|e] eqn:E.
      * apply viaOrThrow_outcome_fulfilled in E. exfalso.
        destruct E as [E|[_ E]]; [rewrite Hnone in E; discriminate|].
        apply Hsys. exists d. exact E.
      * apply (await_all_some_rejected _ e).
        apply in_map_iff. exists link. split; [exact E | exact Hl].
    + intros docs i Hdocs Hi. rewrite Hthrow in Hdocs.
      destruct (await_all_pointwise _ _ _ Hdocs) as [_ Hnth].
      destruct (Hnth i link Hi) as [d [Hd Hv]].
      apply viaOrThrow_outcome_fulfilled in Hv.
      destruct Hv as [Hv|[_ Hv]]; [rewrite Hnone in Hv; discriminate|].
      exists d. auto.
Qed.

Lemma read_only_of_runs {A} (m : M S Value A) :
  (forall s, exists r cs, runs_as m s r cs /\ forallb is_read cs = true) ->
  read_only m.
Proof.
  intros H w. destruct (H (store w)) as [r [cs [Hr Hcs]]].
  destruct (runs_as_at _ _ _ _ w Hr eq_refl) as [_ [Hs Hc]].
  split; [exact Hs|]. exists cs. auto.
Qed.

Lemma gets_are_reads (ids : list Value) :
  forallb is_read (flat_map (fun id : Value => [CallGet id]) ids) = true.
Proof. induction ids; simpl; auto. Qed.

Lemma flat_map_reads {A} (c : A -> list (Call Value)) (items : list A) :
  (forall x, forallb is_read (c x) = true) ->
  forallb is_read (flat_map c items) = true.
Proof.
  intros H. induction items as [|x items IH]; simpl; [reflexivity|].
  rewrite forallb_app, H, IH. reflexivity.
Qed.

Lemma via_calls_are_reads (s : S) (id : Value) :
  forallb is_read (via_calls db s id) = true.
Proof. unfold via_calls. destruct (get db s id); reflexivity. Qed.

Lemma viaOrThrow_calls_are_reads (s : S) (id : Value) :
  forallb is_read (viaOrThrow_calls db s id) = true.
Proof. unfold viaOrThrow_calls. destruct (get db s id) as [|[|]]; reflexivity. Qed.

(** C8: none of the seven helpers changes the store, and every call each of
    them issues on the database is a read ([get], [system.get] or an index
    query). *)
Theorem helpers_never_write (ids : list Value) (table toField index : string)
    (value : Value) (fieldArg : option string) :
  read_only (getAll db ids) /\
  read_only (getAllOrThrow db ids) /\
  read_only (getOneFrom db table index value fieldArg) /\
  read_only (getOneFromOrThrow to_text db table index value fieldArg) /\
  read_only (getManyFrom db table index value fieldArg) /\
  read_only (getManyVia read_field db table toField index value fieldArg) /\
  read_only (getManyViaOrThrow read_field to_text db table toField index value fieldArg).
Proof.
  refine (conj _ (conj _ (conj _ (conj _ (conj _ (conj _ _))))));
    apply read_only_of_runs; intros s; eexists; eexists.
  - split; [apply runs_as_getAll | apply gets_are_reads].
  - split; [apply runs_as_getAllOrThrow | apply gets_are_reads].
  - split; [apply runs_as_getOneFrom | reflexivity].
  - split; [apply runs_as_getOneFromOrThrow | reflexivity].
  - split; [apply runs_as_getManyFrom | reflexivity].
  - split; [apply runs_as_getManyVia|].
    simpl. destruct (run_query db s _); [reflexivity|].
    apply flat_map_reads. intros link. apply via_calls_are_reads.
  - split; [apply runs_as_getManyViaOrThrow|].
    simpl. destruct (run_query db s _); [reflexivity|].
    apply flat_map_reads. intros link. apply viaOrThrow_calls_are_reads.
Qed.

End Calls.

(** ** The field argument *)

Section FieldArgument.
Context {S Value Document : Type}.
Variable read_field : Document -> string -> Value.
Variable to_text : Value -> string.
Variable db : GenericDatabaseReader S Value Document.

(** C6, as the code has it: each of the five helpers queries with the field
    passed, or with the index name when none is passed.  The trailing field
    argument may be left out exactly when the first field the index declares
    is the index's own name, however many fields follow it; an argument that
    is passed must be that first field. *)
Theorem field_defaults_to_index_name (w : World S Value)
    (table toField index : string) (value : Value) (fieldArg : option string)
    (F0 : string) (rest : list string) (IndexName : string) :
  let q := mkQuery table index
             match fieldArg with Some field => field | None => index end value in
  calls (snd (getOneFrom db table index value fieldArg w)) = calls w ++ [CallQuery q] /\
  calls (snd (getOneFromOrThrow to_text db table index value fieldArg w))
  = calls w ++ [CallQuery q] /\
  calls (snd (getManyFrom db table index value fieldArg w)) = calls w ++ [CallQuery q] /\
  (exists more,
     calls (snd (getManyVia read_field db table toField index value fieldArg w))
     = calls w ++ CallQuery q :: more) /\
  (exists more,
     calls (snd (getManyViaOrThrow read_field to_text db table toField index value fieldArg w))
     = calls w ++ CallQuery q :: more) /\
  (well_typed_fieldArg (F0 :: rest) IndexName None = true <-> F0 = IndexName) /\
  (forall field,
     well_typed_fieldArg (F0 :: rest) IndexName (Some field) = true <-> field = F0).
Proof.
  intros q.
  refine (conj _ (conj _ (conj _ (conj _ (conj _ (conj _ _)))))).
  - apply (runs_as_at _ _ _ _ w
             (runs_as_getOneFrom db (store w) table index value fieldArg) eq_refl).
  - apply (runs_as_at _ _ _ _ w
             (runs_as_getOneFromOrThrow to_text db (store w) table index value fieldArg)
             eq_refl).
  - apply (runs_as_at _ _ _ _ w
             (runs_as_getManyFrom db (store w) table index value fieldArg) eq_refl).
  - eexists.
    apply (runs_as_at _ _ _ _ w
             (runs_as_getManyVia read_field db (store w) table toField index value fieldArg)
             eq_refl).
  - eexists.
    apply (runs_as_at _ _ _ _ w
             (runs_as_getManyViaOrThrow read_field to_text db (store w)
                table toField index value fieldArg) eq_refl).
  - unfold well_typed_fieldArg, FieldIfDoesntMatchIndex.
    destruct (String.eqb_spec F0 IndexName) as [E|E]; simpl.
    + split; auto.
    + split; [discriminate | intros H; contradiction].
  - intros field. unfold well_typed_fieldArg, FieldIfDoesntMatchIndex.
    destruct (String.eqb F0 IndexName); simpl; apply String.eqb_eq.
Qed.

End FieldArgument.

(** ** Runs on the in-memory database *)

Import Mem.

(** A caller's writes do change the store. *)
Example writes_change_the_store :
  db_delete (writer strict) s2 (start sample)
  = (Fulfilled tt, mkWorld sample_less_s2 [CallDelete s2]) /\
  db_insert (writer strict) "users" [("tokenIdentifier", Str "test789")] (start sample)
  = (Fulfilled (Id "users" 9),
     mkWorld (mkStore (rows sample ++ [[("_id", Id "users" 9);
                                        ("tokenIdentifier", Str "test789")]]) 10)
             [CallInsert "users"]).
Proof. split; reflexivity. Qed.

(** The scenario of the spec: two join records of one user point at two
    sessions; after one session is deleted [getManyVia] still yields two
    elements, one of them absent. *)
Example getManyVia_after_delete :
  fst (getManyVia read_field strict "join_table_example" "sessionId" "userId" u1 None
         (start sample))
  = Fulfilled [Some session2; Some session1] /\
  fst (getManyVia read_field strict "join_table_example" "sessionId" "userId" u1 None
         (start sample_less_s2))
  = Fulfilled [None; Some session1].
Proof. split; reflexivity. Qed.

Lemma getAll_in_input_order_witness :
  exists out,
    fst (getAll strict [u1; s2; u2] (start sample_less_s2)) = Fulfilled out /\
    List.length out = 3 /\
    forall i id, nth_error [u1; s2; u2] i = Some id ->
      exists o, nth_error out i = Some o /\
                get strict sample_less_s2 id = inr o /\
                (o = None <-> get strict sample_less_s2 id = inr None).
Proof.
  apply (getAll_in_input_order strict (start sample_less_s2) [u1; s2; u2]).
  intros id [<-|[<-|[<-|[]]]]; eexists; reflexivity.
Defined.

(** C3: with the second identifier's document deleted, [getAllOrThrow]
    raises the error of a [nullThrows] that was given no message; a different
    missing identifier gives the very same error, which therefore names
    neither. *)
Theorem getAllOrThrow_error_names_no_identifier :
  fst (getAllOrThrow strict [u1; s2; u2] (start sample_less_s2))
  = Rejected (NullThrown None) /\
  fst (getAllOrThrow strict [u1; Id "sessions" 77; u2] (start sample_less_s2))
  = Rejected (NullThrown None) /\
  fst (getAll strict [u1; s2; u2] (start sample_less_s2))
  = Fulfilled [Some user1; None; Some user2].
Proof. repeat split. Qed.

Lemma getOneFrom_several_matches_raise_witness :
  fst (getOneFrom strict "sessions" "user" u1 None (start sample)) = Rejected UniqueError /\
  fst (getOneFromOrThrow to_text strict "sessions" "user" u1 None (start sample))
  = Rejected UniqueError.
Proof.
  apply (getOneFrom_several_matches_raise to_text strict (start sample)
           "sessions" "user" u1 None [session1; session2]).
  - reflexivity.
  - simpl. lia.
Defined.










(** C2: one of the first user's two join records points at a session that
    was deleted.  [getManyVia] yields an absent element for it, and
    [getManyViaOrThrow] raises; but what it raises is the exception
    [db.system.get] raised for the session's identifier, which the catch
    branch went on to call, and not the missing-record error: the message
    that names the join collection, the target field and the lookup value
    was built and thrown inside the try and swallowed by the catch. *)
Theorem getManyViaOrThrow_loses_the_missing_record_message :
  fst (getManyVia read_field strict "join_table_example" "sessionId" "userId" u1 None
         (start sample_less_s2))
  = Fulfilled [None; Some session1] /\
  fst (getManyViaOrThrow read_field to_text strict
         "join_table_example" "sessionId" "userId" u1 None (start sample_less_s2))
  = Rejected (StoreError "system.get: identifier of a user table") /\
  missing_via to_text s2 "join_table_example" "sessionId" "userId" u1 None
  = "Can't find document sessions/3 referenced in join_table_example's field sessionId for userId equal to users/0".
Proof. repeat split. Qed.

Lemma getManyViaOrThrow_raises_iff_absent_witness :
  ((exists e,
      fst (getManyViaOrThrow read_field to_text strict
             "join_table_example" "sessionId" "userId" u1 None (start sample_less_s2))
      = Rejected e)
   <-> In None [None; Some session1]) /\
  (forall docs, [None; Some session1] = map Some docs ->
     fst (getManyViaOrThrow read_field to_text strict
            "join_table_example" "sessionId" "userId" u1 None (start sample_less_s2))
     = Fulfilled docs).
Proof.
  apply (getManyViaOrThrow_raises_iff_absent read_field to_text strict
           (start sample_less_s2) "join_table_example" "sessionId" "userId" u1 None
           [edge1; edge2] [None; Some session1]).
  - reflexivity.
  - intros link [<-|[<-|[]]] Hnone [d Hd]; discriminate.
  - reflexivity.
Defined.

Lemma system_fallback_only_on_exception_witness :
  (exists issued,
     calls (snd (getManyVia read_field strict "join_table_example" "sessionId" "userId"
                   u1 None (start sample_less_s2)))
     = [] ++ issued /\
     (forall id, In (CallSystemGet id) issued <->
        exists link, In link [edge1; edge2] /\ read_field link "sessionId" = id /\
                     raises (get strict sample_less_s2 id)) /\
     List.length (filter is_system_get issued) = 0) /\
  (exists issued,
     calls (snd (getManyViaOrThrow read_field to_text strict
                   "join_table_example" "sessionId" "userId" u1 None
                   (start sample_less_s2)))
     = [] ++ issued /\
     (forall id, In (CallSystemGet id) issued <->
        exists link, In link [edge1; edge2] /\ read_field link "sessionId" = id /\
                     ~ resolves (get strict sample_less_s2 id)) /\
     List.length (filter is_system_get issued) = 1).
Proof.
  destruct (system_fallback_only_on_exception read_field to_text strict
              (start sample_less_s2) "join_table_example" "sessionId" "userId" u1 None
              [edge1; edge2] eq_refl) as [Hvia [_ [Hthrow _]]].
  split; [exact Hvia | exact Hthrow].
Defined.

(** C6, refuted as stated: an index named after the first of its two fields
    lets the field argument be left out, and an index that requires the
    argument rejects its second declared field. *)
Lemma field_optional_with_two_fields :
  well_typed_fieldArg ["userId"; "storageId"] "userId" None = true /\
  List.length ["userId"; "storageId"] = 2 /\
  well_typed_fieldArg ["user"; "room"] "user_room" None = false /\
  In "room" ["user"; "room"] /\
  well_typed_fieldArg ["user"; "room"] "user_room" (Some "room") = false /\
  well_typed_fieldArg ["user"; "room"] "user_room" (Some "user") = true.
Proof. repeat split. simpl. auto. Qed.

Lemma getAllOrThrow_error_witness :
  exists id, In id [u1; s2; u2] /\
    ((get strict sample_less_s2 id = inr None /\ NullThrown None = NullThrown None) \/
     (exists x, get strict sample_less_s2 id = inl x /\ NullThrown None = StoreError x)).
Proof.
  apply (getAllOrThrow_error strict (start sample_less_s2) [u1; s2; u2] (NullThrown None)).
  reflexivity.
Defined.

Lemma getOneFromOrThrow_no_match_witness :
  fst (getOneFromOrThrow to_text strict "users" "tokenIdentifier" (Str "none") None
         (start sample))
  = Rejected (NullThrown (Some
      "Can't find a document in users with field tokenIdentifier equal to none")).
Proof.
  apply (getOneFromOrThrow_no_match to_text strict (start sample)
           "users" "tokenIdentifier" (Str "none") None).
  reflexivity.
Defined.

(** * Further facts *)

(** ** The throwing lookups against the plain ones *)

Section LookupsCompared.
Context {S Value Document : Type}.
Variable to_text : Value -> string.
Variable db : GenericDatabaseReader S Value Document.

(** [getOneFromOrThrow] is [getOneFrom] with absence turned into the
    missing-record error: a document is passed on, absent becomes the error
    that names table, field and value, and an error of the lookup itself
    (the store's, or that of [unique()]) is the same in both. *)
Theorem getOneFromOrThrow_after_getOneFrom (w : World S Value) (table index : string)
    (value : Value) (fieldArg : option string) :
  fst (getOneFromOrThrow to_text db table index value fieldArg w)
  = match fst (getOneFrom db table index value fieldArg w) with
    | Fulfilled (Some d) => Fulfilled d
    | Fulfilled None =>
        Rejected (NullThrown (Some
          ("Can't find a document in " ++ table ++ " with field "
           ++ (fieldArg ?? index) ++ " equal to " ++ to_text value)%string))
    | Rejected e => Rejected e
    end.
Proof.
  destruct (runs_as_at _ _ _ _ w
              (runs_as_getOneFrom db (store w) table index value fieldArg) eq_refl)
    as [-> _].
  destruct (runs_as_at _ _ _ _ w
              (runs_as_getOneFromOrThrow to_text db (store w) table index value fieldArg)
              eq_refl)
    as [-> _].
  destruct (run_query db (store w) (mkQuery table index (fieldArg ?? index) value))
    as [e|[|d [|d' rows]]]; reflexivity.
Qed.


End LookupsCompared.

(** ** More on join traversal *)

Section JoinTraversalMore.
Context {S Value Document : Type}.
Variable read_field : Document -> string -> Value.
Variable to_text : Value -> string.
Variable db : GenericDatabaseReader S Value Document.

Lemma via_outcome_rejected (s : S) (id : Value) (e : Error) :
  via_outcome db s id = Rejected e <->
  raises (get db s id) /\ exists x, system_get db s id = inl x /\ e = StoreError x.
Proof.
  unfold via_outcome, raises.
  destruct (get db s id) as [e0|r].
  - destruct (system_get db s id) as [x|r']; simpl; split.
    + intros H. injection H as <-. split; [exists e0; reflexivity|].
      exists x. auto.
    + intros [_ [y [H ->]]]. injection H as ->. reflexivity.
    + discriminate.
    + intros [_ [y [H _]]]. discriminate.
  - split; [discriminate|]. intros [[x H] _]. discriminate.
Qed.

(** When [db.get] answers the target of every join record, [getManyVia] is
    [getAll] over the targets of the records [getManyFrom] finds: the system
    fallback plays no part. *)
Theorem getManyVia_is_getAll_of_targets (w : World S Value)
    (table toField index : string) (value : Value) (fieldArg : option string)
    (links : list Document) :
  run_query db (store w) (mkQuery table index (fieldArg ?? index) value) = inr links ->
  (forall link, In link links ->
     exists r, get db (store w) (read_field link toField) = inr r) ->
  fst (getManyVia read_field db table toField index value fieldArg w)
  = fst (getAll db (map (fun link => read_field link toField) links) w).
Proof.
  intros Hq Hget.
  destruct (runs_as_at _ _ _ _ w
              (runs_as_getManyVia read_field db (store w) table toField index value fieldArg)
              eq_refl) as [-> _].
  destruct (runs_as_at _ _ _ _ w
              (runs_as_getAll db (store w) (map (fun link => read_field link toField) links))
              eq_refl) as [-> _].
  rewrite Hq, map_map. f_equal. apply map_ext_in.
  intros link Hl. unfold via_outcome.
  destruct (Hget link Hl) as [r ->]. reflexivity.
Qed.

(** [getManyVia] raises exactly when the Stage-1 lookup raises or some join
    record has both [db.get] and [db.system.get] raise; what it raises is
    always an exception of the database, never a missing-record error. *)
Theorem getManyVia_raises_iff (w : World S Value)
    (table toField index : string) (value : Value) (fieldArg : option string) :
  let q := mkQuery table index (fieldArg ?? index) value in
  ((exists e, fst (getManyVia read_field db table toField index value fieldArg w)
              = Rejected e)
   <-> raises (run_query db (store w) q) \/
       exists links link,
         run_query db (store w) q = inr links /\ In link links /\
         raises (get db (store w) (read_field link toField)) /\
         raises (system_get db (store w) (read_field link toField))) /\
  (forall e, fst (getManyVia read_field db table toField index value fieldArg w)
             = Rejected e ->
             exists x, e = StoreError x).
Proof.
  intros q.
  destruct (runs_as_at _ _ _ _ w
              (runs_as_getManyVia read_field db (store w) table toField index value fieldArg)
              eq_refl) as [-> _].
  fold q. destruct (run_query db (store w) q) as [x|links].
  - split.
    + split; [intros _; left; exists x; reflexivity | intros _; eexists; reflexivity].
    + intros e H. injection H as <-. exists x. reflexivity.
  - split; [split|].
    + intros [e H]. right. apply await_all_rejected in H. apply in_map_iff in H.
      destruct H as [link [H Hl]]. apply via_outcome_rejected in H.
      destruct H as [Hg [x [Hs _]]].
      exists links, link. repeat split; auto. exists x. exact Hs.
    + intros [[x H]|[links' [link [Hq [Hl [Hg [x Hs]]]]]]]; [discriminate|].
      injection Hq as <-.
      apply (await_all_some_rejected _ (StoreError x)).
      apply in_map_iff. exists link. split; [|exact Hl].
      apply via_outcome_rejected. split; [exact Hg|]. exists x. auto.
    + intros e H. apply await_all_rejected in H. apply in_map_iff in H.
      destruct H as [link [H _]]. apply via_outcome_rejected in H.
      destruct H as [_ [x [_ ->]]]. exists x. reflexivity.
Qed.

(** When no join record matches, [getManyVia] and [getManyViaOrThrow] both
    return the empty sequence, having issued the index query and nothing
    else: for [getManyViaOrThrow] no match is not a missing record. *)
Theorem join_traversal_of_no_match (w : World S Value)
    (table toField index : string) (value : Value) (fieldArg : option string) :
  let q := mkQuery table index (fieldArg ?? index) value in
  run_query db (store w) q = inr [] ->
  getManyVia read_field db table toField index value fieldArg w
  = (Fulfilled [], record (CallQuery q) w) /\
  getManyViaOrThrow read_field to_text db table toField index value fieldArg w
  = (Fulfilled [], record (CallQuery q) w).
Proof.
  intros q Hq.
  pose proof (runs_as_getManyVia read_field db (store w) table toField index value fieldArg
                w eq_refl) as Hvia.
  pose proof (runs_as_getManyViaOrThrow read_field to_text db (store w)
                table toField index value fieldArg w eq_refl) as Hthrow.
  simpl in Hvia, Hthrow. fold q in Hvia, Hthrow. rewrite Hq in Hvia, Hthrow.
  split; assumption.
Qed.

End JoinTraversalMore.

(** ** Calls in sequence *)

Section Sequences.
Context {S Value Document : Type}.
Variable read_field : Document -> string -> Value.
Variable to_text : Value -> string.
Variable db : GenericDatabaseReader S Value Document.




End Sequences.

(** ** The assertions of the example on the helpers' results *)

Lemma findIndex_ge {A} (predicate : A -> bool) (array : list A) :
  (-1 <= findIndex predicate array)%Z.
Proof.
  induction array as [|v rest IH]; simpl; [lia|].
  destruct (predicate v); [lia|].
  destruct (Z.eqb_spec (findIndex predicate rest) (-1)); lia.
Qed.

Lemma findIndex_none {A} (predicate : A -> bool) (array : list A) :
  findIndex predicate array = (-1)%Z <-> forall v, In v array -> predicate v = false.
Proof.
  induction array as [|v rest IH]; simpl.
  - split; [intros _ v [] | reflexivity].
  - destruct (predicate v) eqn:Ev.
    + split; [discriminate|]. intros H. rewrite (H v (or_introl eq_refl)) in Ev.
      discriminate.
    + pose proof (findIndex_ge predicate rest) as Hge.
      destruct (Z.eqb_spec (findIndex predicate rest) (-1)) as [E|E].
      * split; [|reflexivity]. intros _ x [<-|Hx]; [exact Ev|].
        apply IH; assumption.
      * split; [lia|]. intros H. exfalso. apply E. apply IH.
        intros x Hx. apply H. right. exact Hx.
Qed.

Lemma findIndex_found {A} (predicate : A -> bool) (array : list A) :
  findIndex predicate array <> (-1)%Z -> exists v, In v array /\ predicate v = true.
Proof.
  induction array as [|v rest IH]; simpl; [intros H; contradiction|].
  destruct (predicate v) eqn:Ev; [intros _; exists v; auto|].
  destruct (Z.eqb_spec (findIndex predicate rest) (-1)) as [E|E];
    [intros H; contradiction|].
  intros _. destruct (IH E) as [x [Hx Hp]]. exists x. auto.
Qed.

Lemma assertHasNull_iff {A} (value : list (option A)) :
  assertHasNull value = inr tt <-> In None value.
Proof.
  unfold assertHasNull.
  destruct (Z.eqb_spec (findIndex is_null value) (-1)) as [E|E].
  - split; [discriminate|]. intros H.
    pose proof (proj1 (findIndex_none is_null value) E None H) as Hn. discriminate.
  - split; [intros _|reflexivity].
    destruct (findIndex_found _ _ E) as [[a|] [Hin Hp]]; [discriminate|exact Hin].
Qed.

Section AssertionsOnResults.
Context {S Value Document : Type}.
Variable read_field : Document -> string -> Value.
Variable db : GenericDatabaseReader S Value Document.

(** What the example checks after a delete: on the sequence [getAll]
    returns, [assertHasNull] passes exactly when some identifier has no
    document, and that is exactly when [getAllOrThrow] on the same
    identifiers raises.  ([db.get] is taken to answer every identifier.) *)
Theorem assertHasNull_on_getAll (w : World S Value) (ids : list Value) :
  (forall id, In id ids -> exists r, get db (store w) id = inr r) ->
  exists out,
    fst (getAll db ids w) = Fulfilled out /\
    (assertHasNull out = inr tt
     <-> exists id, In id ids /\ get db (store w) id = inr None) /\
    (assertHasNull out = inr tt
     <-> exists e, fst (getAllOrThrow db ids w) = Rejected e).
Proof.
  intros Hget.
  destruct (runs_as_at _ _ _ _ w (runs_as_getAll db (store w) ids) eq_refl) as [-> _].
  destruct (runs_as_at _ _ _ _ w (runs_as_getAllOrThrow db (store w) ids) eq_refl)
    as [-> _].
  destruct (await_all_total (map (fun id => settle (get db (store w) id)) ids))
    as [out Hout].
  { intros r Hr. apply in_map_iff in Hr. destruct Hr as [id [<- Hid]].
    destruct (Hget id Hid) as [o ->]. exists o. reflexivity. }
  exists out. split; [exact Hout|].
  assert (Hnull : In None out <-> exists id, In id ids /\ get db (store w) id = inr None).
  { rewrite (await_all_in _ _ _ None Hout). split; intros [id [Hid H]]; exists id;
      (split; [exact Hid|]).
    - destruct (get db (store w) id) as [e|[d|]]; simpl in H;
        try discriminate; reflexivity.
    - rewrite H. reflexivity. }
  rewrite assertHasNull_iff. split; [exact Hnull|].
  rewrite Hnull. split.
  - intros [id [Hid H]].
    apply (await_all_some_rejected _ (NullThrown None)).
    apply in_map_iff. exists id. split; [|exact Hid].
    unfold getAllOrThrow_outcome. rewrite H. reflexivity.
  - intros [e H]. apply await_all_rejected in H. apply in_map_iff in H.
    destruct H as [id [H Hid]]. exists id. split; [exact Hid|].
    unfold getAllOrThrow_outcome in H.
    destruct (Hget id Hid) as [[d|] Hr]; rewrite Hr in H; simpl in H;
      [discriminate | exact Hr].
Qed.

(** What the example checks around [getOneFrom]: on its result,
    [assertNull] passes exactly when the index query yields no document and
    [assertNotNull] exactly when it yields a single one. *)
Theorem assertNull_on_getOneFrom (w : World S Value) (table index : string)
    (value : Value) (fieldArg : option string) (to_text : Document -> string)
    (found : option Document) :
  fst (getOneFrom db table index value fieldArg w) = Fulfilled found ->
  let q := mkQuery table index (fieldArg ?? index) value in
  (assertNull to_text found = inr tt <-> run_query db (store w) q = inr []) /\
  (assertNotNull found = inr tt <-> exists d, run_query db (store w) q = inr [d]).
Proof.
  intros Hone q.
  destruct (runs_as_at _ _ _ _ w
              (runs_as_getOneFrom db (store w) table index value fieldArg) eq_refl)
    as [H _].
  rewrite Hone in H. fold q in H.
  destruct (run_query db (store w) q) as [e|[|d [|d' rows]]]; try discriminate;
    injection H as ->; simpl.
  - split; split; try reflexivity; try discriminate.
    intros [d H]. discriminate.
  - split; split; try discriminate; try reflexivity.
    intros _. exists d. reflexivity.
Qed.

(** [assertLength] on what [getManyVia] returns passes for the number of
    join records [getManyFrom] finds and for no other; absent targets
    count. *)
Theorem assertLength_on_getManyVia (w : World S Value)
    (table toField index : string) (value : Value) (fieldArg : option string)
    (links : list Document) (out : list (option Document)) (length : nat) :
  fst (getManyFrom db table index value fieldArg w) = Fulfilled links ->
  fst (getManyVia read_field db table toField index value fieldArg w) = Fulfilled out ->
  (assertLength out length = inr tt <-> List.length links = length) /\
  assertLength out length = assertLength links length.
Proof.
  intros Hfrom Hvia.
  destruct (runs_as_at _ _ _ _ w
              (runs_as_getManyFrom db (store w) table index value fieldArg) eq_refl)
    as [Hf _].
  destruct (runs_as_at _ _ _ _ w
              (runs_as_getManyVia read_field db (store w) table toField index value fieldArg)
              eq_refl) as [Hv _].
  rewrite Hfrom in Hf. rewrite Hvia in Hv.
  destruct (run_query db (store w) (mkQuery table index (fieldArg ?? index) value))
    as [e|links']; simpl in Hf; [discriminate|].
  injection Hf as <-. symmetry in Hv.
  destruct (await_all_pointwise _ _ _ Hv) as [Hlen _].
  unfold assertLength. rewrite Hlen. split; [|reflexivity].
  destruct (Nat.eqb_spec (List.length links) length); simpl; split; intros H;
    try reflexivity; try assumption; try discriminate; contradiction.
Qed.

End AssertionsOnResults.

(** ** Which tables are join tables *)

Lemma is_user_index_iff (IndexName : string) :
  is_user_index IndexName = true <-> IndexName <> "by_creation_time".
Proof.
  unfold is_user_index. destruct (String.eqb_spec IndexName "by_creation_time"); simpl.
  - split; [discriminate | intros H; contradiction].
  - split; auto.
Qed.

Lemma extends_GenericId_IdType (TableName : list string) (target : string) :
  extends_GenericId TableName (IdType target) = true <-> In target TableName.
Proof.
  unfold extends_GenericId. simpl. rewrite existsb_exists. split.
  - intros [x [Hx Heq]]. apply String.eqb_eq in Heq. subst x. exact Hx.
  - intros H. exists target. split; [exact H | apply String.eqb_refl].
Qed.

Lemma in_IdFilePaths (t : TableInfo) (TableName : list string) (FieldPath : string) :
  In FieldPath (IdFilePaths t TableName) <->
  exists type, In (FieldPath, type) (fieldPaths t) /\
               extends_GenericId TableName type = true /\ FieldPath <> "_id".
Proof.
  unfold IdFilePaths. rewrite in_map_iff. split.
  - intros [[f ty] [Hf Hin]]. simpl in Hf. subst f.
    apply filter_In in Hin. destruct Hin as [Hin Hid].
    unfold is_id_path in Hid. simpl in Hid.
    apply andb_true_iff in Hid. destruct Hid as [Ht Hn].
    exists ty. repeat split; auto.
    intros ->. simpl in Hn. discriminate.
  - intros [ty [Hin [Ht Hn]]]. exists (FieldPath, ty).
    split; [reflexivity|]. apply filter_In. split; [exact Hin|].
    unfold is_id_path. simpl. apply andb_true_iff. split; [exact Ht|].
    destruct (String.eqb_spec FieldPath "_id"); [contradiction | reflexivity].
Qed.

Lemma not_extends_literal (t : TableInfo) (FieldPath : string) :
  extends_literal (LookupFieldPaths t) FieldPath = false <->
  exists IndexName fields,
    In (IndexName, fields) (indexes t) /\ IndexName <> "by_creation_time" /\
    hd_error fields <> Some FieldPath.
Proof.
  unfold extends_literal, LookupFieldPaths.
  induction (indexes t) as [|[i fs] rest IH]; simpl.
  - split; [discriminate | intros [i [fs [[] _]]]].
  - destruct (is_user_index i) eqn:Ei; simpl.
    + apply is_user_index_iff in Ei.
      destruct (hd_error fs) as [f|] eqn:Eh.
      * destruct (String.eqb_spec f FieldPath) as [->|Hne]; simpl.
        -- rewrite IH. split.
           ++ intros [i' [fs' [Hin H]]]. exists i', fs'. split; [right; exact Hin | exact H].
           ++ intros [i' [fs' [[Heq|Hin] [Hi Hh]]]].
              ** injection Heq as <- <-. rewrite Eh in Hh. contradiction.
              ** exists i', fs'. auto.
        -- split; [intros _|reflexivity].
           exists i, fs. split; [left; reflexivity|]. split; [exact Ei|].
           rewrite Eh. intros H. injection H as ->. contradiction.
      * split; [intros _|reflexivity].
        exists i, fs. split; [left; reflexivity|]. split; [exact Ei|].
        rewrite Eh. discriminate.
    + rewrite IH. split.
      * intros [i' [fs' [Hin H]]]. exists i', fs'. split; [right; exact Hin | exact H].
      * intros [i' [fs' [[Heq|Hin] [Hi Hh]]]].
        -- injection Heq as <- <-. apply is_user_index_iff in Hi.
           rewrite Hi in Ei. discriminate.
        -- exists i', fs'. auto.
Qed.

Lemma join_table_info (SystemTableNames : list string) (DataModel : GenericDataModel)
    (t : TableInfo) :
  has_lookups t && LookupAndIdFilePaths SystemTableNames DataModel t = true <->
  exists FieldPath type IndexName fields,
    In (FieldPath, type) (fieldPaths t) /\
    extends_GenericId (TableNamesInDataModel DataModel ++ SystemTableNames) type = true /\
    FieldPath <> "_id" /\
    In (IndexName, fields) (indexes t) /\ IndexName <> "by_creation_time" /\
    hd_error fields <> Some FieldPath.
Proof.
  unfold LookupAndIdFilePaths. rewrite andb_true_iff, existsb_exists. split.
  - intros [_ [FieldPath [Hid Hne]]].
    apply in_IdFilePaths in Hid. destruct Hid as [type [Hf [Ht Hn]]].
    apply negb_true_iff, not_extends_literal in Hne.
    destruct Hne as [IndexName [fields [Hi [Hu Hh]]]].
    exists FieldPath, type, IndexName, fields. auto 10.
  - intros [FieldPath [type [IndexName [fields [Hf [Ht [Hn [Hi [Hu Hh]]]]]]]]].
    split.
    + unfold has_lookups, UserIndexes.
      assert (Hin : In IndexName (filter is_user_index (map fst (indexes t)))).
      { apply filter_In. split; [|apply is_user_index_iff; exact Hu].
        apply in_map_iff. exists (IndexName, fields). auto. }
      destruct (filter is_user_index (map fst (indexes t))); [contradiction|reflexivity].
    + exists FieldPath. split.
      * apply in_IdFilePaths. exists type. auto.
      * apply negb_true_iff, not_extends_literal. exists IndexName, fields. auto.
Qed.

(** A table is accepted as a join table exactly when it has a field path
    other than [_id] whose type passes the identifier test of [IdFilePaths],
    and an index other than [by_creation_time] whose first field is not that
    field path; every such table has lookups.  The identifier test is passed
    by an identifier of a table of the data model or of a system table, by
    [any], and by [never]; an optional identifier does not pass it. *)
Theorem JoinTables_iff (SystemTableNames : list string) (DataModel : GenericDataModel)
    (TableName : string) :
  let known := TableNamesInDataModel DataModel ++ SystemTableNames in
  (In TableName (JoinTables SystemTableNames DataModel) <->
   exists t FieldPath type IndexName fields,
     In (TableName, t) DataModel /\
     In (FieldPath, type) (fieldPaths t) /\
     extends_GenericId known type = true /\
     FieldPath <> "_id" /\
     In (IndexName, fields) (indexes t) /\ IndexName <> "by_creation_time" /\
     hd_error fields <> Some FieldPath) /\
  (In TableName (JoinTables SystemTableNames DataModel) ->
   In TableName (TablesWithLookups DataModel)) /\
  (forall target, extends_GenericId known (IdType target) = true <-> In target known) /\
  extends_GenericId known AnyType = true /\
  extends_GenericId known (UnionType []) = true /\
  extends_GenericId known OtherType = false /\
  (forall target, extends_GenericId known (UnionType [IdType target; OtherType]) = false).
Proof.
  intros known. unfold JoinTables, TablesWithLookups.
  refine (conj (conj _ _) (conj _ (conj _ (conj _ (conj _ (conj _ _)))))).
  - intros H. apply in_map_iff in H. destruct H as [[T t] [HT Hin]].
    simpl in HT. subst T. apply filter_In in Hin. destruct Hin as [Hin Hj].
    simpl in Hj. apply join_table_info in Hj.
    destruct Hj as [FieldPath [type [IndexName [fields Hj]]]].
    exists t, FieldPath, type, IndexName, fields. split; [exact Hin | exact Hj].
  - intros [t [FieldPath [type [IndexName [fields [Hin Hj]]]]]].
    apply in_map_iff. exists (TableName, t). split; [reflexivity|].
    apply filter_In. split; [exact Hin|]. simpl. apply join_table_info.
    exists FieldPath, type, IndexName, fields. exact Hj.
  - intros H. apply in_map_iff in H. destruct H as [[T t] [HT Hin]].
    simpl in HT. subst T. apply filter_In in Hin. destruct Hin as [Hin Hj].
    simpl in Hj. apply andb_true_iff in Hj.
    apply in_map_iff. exists (TableName, t). split; [reflexivity|].
    apply filter_In. split; [exact Hin | apply Hj].
  - intros target. apply extends_GenericId_IdType.
  - reflexivity.
  - reflexivity.
  - reflexivity.
  - intros target. unfold extends_GenericId. simpl.
    rewrite andb_false_r. reflexivity.
Qed.

(** A table with an index of its own and two different fields, other than
    [_id], that hold identifiers is always accepted as a join table:
    whichever field a lookup starts with, one of the two is not it. *)
Theorem two_id_fields_make_a_join_table (SystemTableNames : list string)
    (DataModel : GenericDataModel) (TableName : string) (t : TableInfo)
    (f1 f2 target1 target2 IndexName : string) :
  In (TableName, t) DataModel ->
  In IndexName (UserIndexes t) ->
  In (f1, IdType target1) (fieldPaths t) ->
  In (f2, IdType target2) (fieldPaths t) ->
  In target1 (TableNamesInDataModel DataModel ++ SystemTableNames) ->
  In target2 (TableNamesInDataModel DataModel ++ SystemTableNames) ->
  f1 <> "_id" -> f2 <> "_id" -> f1 <> f2 ->
  In TableName (JoinTables SystemTableNames DataModel).
Proof.
  intros Hin Hidx H1 H2 Ht1 Ht2 Hn1 Hn2 Hne.
  unfold JoinTables. apply in_map_iff. exists (TableName, t). split; [reflexivity|].
  apply filter_In. split; [exact Hin|]. simpl. apply join_table_info.
  unfold UserIndexes in Hidx. apply filter_In in Hidx. destruct Hidx as [Hi Hu].
  apply is_user_index_iff in Hu. apply in_map_iff in Hi.
  destruct Hi as [[i fields] [Hi Hentry]]. simpl in Hi. subst i.
  destruct (hd_error fields) as [g|] eqn:Eh.
  - destruct (String.eqb_spec g f1) as [->|Hg].
    + exists f2, (IdType target2), IndexName, fields.
      apply extends_GenericId_IdType in Ht2. repeat split; auto.
      rewrite Eh. intros H. injection H as ->. contradiction.
    + exists f1, (IdType target1), IndexName, fields.
      apply extends_GenericId_IdType in Ht1. repeat split; auto.
      rewrite Eh. intros H. injection H as ->. contradiction.
  - exists f1, (IdType target1), IndexName, fields.
    apply extends_GenericId_IdType in Ht1. repeat split; auto.
    rewrite Eh. discriminate.
Qed.

(** ** Further runs on the in-memory database *)

Lemma getManyVia_is_getAll_of_targets_witness :
  fst (getManyVia read_field strict "join_table_example" "sessionId" "userId" u1 None
         (start sample_less_s2))
  = fst (getAll strict (map (fun link => read_field link "sessionId") [edge1; edge2])
           (start sample_less_s2)).
Proof.
  apply (getManyVia_is_getAll_of_targets read_field strict (start sample_less_s2)
           "join_table_example" "sessionId" "userId" u1 None [edge1; edge2]).
  - reflexivity.
  - intros link [<-|[<-|[]]]; eexists; reflexivity.
Defined.

Lemma join_traversal_of_no_match_witness :
  getManyVia read_field strict "join_storage_example" "storageId" "userId" u2 None
    (start sample)
  = (Fulfilled [],
     record (CallQuery (mkQuery "join_storage_example" "userId" "userId" u2)) (start sample)) /\
  getManyViaOrThrow read_field to_text strict "join_storage_example" "storageId" "userId"
    u2 None (start sample)
  = (Fulfilled [],
     record (CallQuery (mkQuery "join_storage_example" "userId" "userId" u2)) (start sample)).
Proof.
  apply (join_traversal_of_no_match read_field to_text strict (start sample)
           "join_storage_example" "storageId" "userId" u2 None).
  reflexivity.
Defined.

Lemma assertHasNull_on_getAll_witness :
  exists out,
    fst (getAll strict [u1; s2; u2] (start sample_less_s2)) = Fulfilled out /\
    (assertHasNull out = inr tt
     <-> exists id, In id [u1; s2; u2] /\ get strict sample_less_s2 id = inr None) /\
    (assertHasNull out = inr tt
     <-> exists e, fst (getAllOrThrow strict [u1; s2; u2] (start sample_less_s2))
                   = Rejected e).
Proof.
  apply (assertHasNull_on_getAll strict (start sample_less_s2) [u1; s2; u2]).
  intros id [<-|[<-|[<-|[]]]]; eexists; reflexivity.
Defined.

Lemma assertLength_on_getManyVia_witness :
  (assertLength [None; Some session1] 2 = inr tt <-> List.length [edge1; edge2] = 2) /\
  assertLength [None; Some session1] 2 = assertLength [edge1; edge2] 2.
Proof.
  apply (assertLength_on_getManyVia read_field strict (start sample_less_s2)
           "join_table_example" "sessionId" "userId" u1 None
           [edge1; edge2] [None; Some session1] 2).
  - reflexivity.
  - reflexivity.
Defined.

Lemma two_id_fields_make_a_join_table_witness :
  In "join_table_example" (JoinTables Schema.SystemTableNames Schema.DataModel).
Proof.
  apply (two_id_fields_make_a_join_table Schema.SystemTableNames Schema.DataModel
           "join_table_example" Schema.join_table_example
           "userId" "sessionId" "users" "sessions" "userId").
  - simpl. auto.
  - simpl. auto.
  - simpl. auto.
  - simpl. auto.
  - simpl. auto.
  - simpl. auto 10.
  - discriminate.
  - discriminate.
  - discriminate.
Defined.

(** The tables of the example: the two join tables are accepted, and so is
    [presence], through its [data] field of type [any]; without that field
    it is not, its one identifier field being the field its one index starts
    with. *)
Example join_tables_of_the_example :
  JoinTables Schema.SystemTableNames Schema.DataModel
  = ["presence"; "join_table_example"; "join_storage_example"] /\
  JoinTables Schema.SystemTableNames
    [("users", Schema.users); ("presence", Schema.presence_without_data)] = [] /\
  TablesWithLookups Schema.DataModel
  = ["users"; "presence"; "join_table_example"; "join_storage_example"].
Proof. repeat split. Qed.

Lemma assertNull_on_getOneFrom_witness :
  (assertNull (fun _ : Doc => "[object Object]") None = inr tt
   <-> run_query strict sample_less_s2 (mkQuery "sessions" "user" "user" u2) = inr []) /\
  (assertNotNull (@None Doc) = inr tt
   <-> exists d, run_query strict sample_less_s2 (mkQuery "sessions" "user" "user" u2)
                 = inr [d]).
Proof.
  apply (assertNull_on_getOneFrom strict (start sample_less_s2) "sessions" "user" u2 None
           (fun _ : Doc => "[object Object]") None).
  reflexivity.
Defined.
